(** * Four-part voicing (voicing.py): a shallow embedding and its properties

    The program voices a chord progression for bass, tenor, alto and soprano:
    [voiceNote] lists the pitches of a note name inside a range, [voiceChord]
    lists the four-part voicings of a chord, [cost] scores the transition
    between two voicings and [voiceProgression] chains the voicings of a
    progression by dynamic programming.  [showChords] and [showVoicings]
    lay chords out on a score of four voices.

    The program is written against the music21 library.  The part of
    music21 that the program touches is modelled first: pitches with
    their spelling, octave number and height, the comparison of pitches,
    and chords as the list of their pitches from low to high.  What
    music21 finds out about a voiced chord (its root, third and seventh)
    is a parameter of [cost]. *)

From Stdlib Require Import ZArith List Bool String Lia Permutation Sorted.
Import ListNotations.
Open Scope Z_scope.

(** ** Python exceptions and results *)

(** The built-in exceptions the program can raise. *)
Inductive exn : Type :=
| AssertionError
| IndexError
| ValueError
| KeyError.


(** A computation either returns a value or raises. *)
Inductive result (A : Type) : Type :=
| Ok (a : A)
| Raise (e : exn).

Arguments Ok {A} a.
Arguments Raise {A} e.

Definition bind {A B : Type} (m : result A) (k : A -> result B) : result B :=
  match m with
  | Ok a => k a
  | Raise e => Raise e
  end.

Notation "x <- m ;; k" := (bind m (fun x => k))
  (at level 61, m at next level, right associativity).

(** ** music21 pitches *)

Inductive Step : Type := C | D | E | F | G | A | B.

(** Semitones of a step above the C of its octave. *)
Definition stepPc (s : Step) : Z :=
  match s with
  | C => 0 | D => 2 | E => 4 | F => 5 | G => 7 | A => 9 | B => 11
  end.

(** A note name is a step and an accidental: [alter] counts semitones,
    positive for sharps and negative for flats ('B-' is [B] with [-1]). *)
Record Name : Type := mkName { step : Step; alter : Z }.

Definition natural (s : Step) : Name := mkName s 0.
Definition sharp (s : Step) : Name := mkName s 1.
Definition flat (s : Step) : Name := mkName s (-1).

(** [Pitch(name + str(octave))]: a spelled pitch.  The octave is the
    written one: B#3 is in octave 3 although it sounds as C4. *)
Record Pitch : Type := mkPitch { name : Name; octave : Z }.

(** Pitch space: the height in semitones, C4 = 60. *)
Definition ps (p : Pitch) : Z :=
  12 * (octave p + 1) + stepPc (step (name p)) + alter (name p).

(** [Pitch.midi]: the height, brought into 0..127 by octaves. *)
Definition midi (p : Pitch) : Z :=
  let roundedPS := ps p in
  if 127 <? roundedPS then
    let value := 12 * 9 + roundedPS mod 12 in
    if value <? 127 - 12 then value + 12 else value
  else if roundedPS <? 0 then roundedPS mod 12
  else roundedPS.

Definition Step_eqb (s t : Step) : bool :=
  match s, t with
  | C, C | D, D | E, E | F, F | G, G | A, A | B, B => true
  | _, _ => false
  end.

Definition Name_eqb (n m : Name) : bool :=
  Step_eqb (step n) (step m) && (alter n =? alter m).

(** [p == q]: same spelling and same octave. *)
Definition Pitch_eqb (p q : Pitch) : bool :=
  Name_eqb (name p) (name q) && (octave p =? octave q).

(** [p < q] and [p > q] compare heights. *)
Definition Pitch_ltb (p q : Pitch) : bool := ps p <? ps q.
Definition Pitch_gtb (p q : Pitch) : bool := ps q <? ps p.

(** [p <= q] is [p < q or p == q]: two different spellings of one height
    are not [<=] each other. *)
Definition Pitch_leb (p q : Pitch) : bool := Pitch_ltb p q || Pitch_eqb p q.

(** [p.transpose('-P8')]: the same name an octave lower. *)
Definition transpose_down_P8 (p : Pitch) : Pitch :=
  mkPitch (name p) (octave p - 1).

(** [max((a, b))] and [min((a, b))] on pitches: Python keeps the first
    of two items unless the second is strictly greater (smaller). *)
Definition max2 (a b : Pitch) : Pitch := if Pitch_gtb b a then b else a.
Definition min2 (a b : Pitch) : Pitch := if Pitch_ltb b a then b else a.

(** ** Voice ranges *)

Definition PitchRange : Type := (Pitch * Pitch)%type.

Definition SOPRANO_RANGE : PitchRange := (mkPitch (natural C) 4, mkPitch (natural G) 5).
Definition ALTO_RANGE : PitchRange := (mkPitch (natural G) 3, mkPitch (natural C) 5).
Definition TENOR_RANGE : PitchRange := (mkPitch (natural C) 3, mkPitch (natural G) 4).
Definition BASS_RANGE : PitchRange := (mkPitch (natural F) 2, mkPitch (natural C) 4).

(** ** voiceNote *)

(** [range(lo, hi)] of Python: the integers from [lo] up to [hi - 1]. *)
Definition range (lo hi : Z) : list Z :=
  map (fun k => lo + Z.of_nat k) (seq 0 (Z.to_nat (hi - lo))).

(** The pitches of [noteName] in the octaves of the range's bounds that
    pass the test [pitchRange[0] <= n <= pitchRange[1]].  The pitch is
    read from the name followed by the number of the octave,
    [Pitch(noteName + str(octave))]: the pitch of that name in that
    octave for the octaves from 0 on, which are those of every range the
    program builds (the minus sign of a negative octave would be read as
    a flat; the properties below leave such ranges out). *)
Definition voiceNote (noteName : Name) (pitchRange : PitchRange) : list Pitch :=
  let lowerOctave := octave (fst pitchRange) in
  let upperOctave := octave (snd pitchRange) in
  filter (fun n => Pitch_leb (fst pitchRange) n && Pitch_leb n (snd pitchRange))
         (map (fun octave => mkPitch noteName octave)
              (range lowerOctave (upperOctave + 1))).

(** ** music21 chords *)

(** A chord is the list of its pitches, in the order the chord keeps them. *)
Definition Chord : Type := list Pitch.

(** [Chord.bass()]: the lowest pitch of the chord, the earliest one among
    pitches of one height; [None] for a chord without pitches. *)
Definition Chord_bass (c : Chord) : option Pitch :=
  match c with
  | [] => None
  | p :: rest => Some (fold_left (fun lowest q => if Pitch_ltb q lowest then q else lowest) rest p)
  end.

(** Insertion of a pitch behind the pitches that are not higher. *)
Fixpoint insertAscending (p : Pitch) (c : Chord) : Chord :=
  match c with
  | [] => [p]
  | q :: rest => if Pitch_ltb p q then p :: q :: rest else q :: insertAscending p rest
  end.

(** [Chord.sortAscending]: a stable sort from low to high. *)
Definition sortAscending (c : Chord) : Chord :=
  fold_left (fun sorted p => insertAscending p sorted) c [].

(** [chord.add(p)]: the pitch is appended and the chord sorted. *)
Definition Chord_add (c : Chord) (p : Pitch) : Chord := sortAscending (c ++ [p]).

(** [chord.pitches[i]], an item of the list of pitches. *)
Definition getitem (c : Chord) (i : nat) : result Pitch :=
  match nth_error c i with
  | Some p => Ok p
  | None => Raise IndexError
  end.

(** [chord[i]], the note of the chord at position [i], which compares as
    its pitch does: where the list of notes has no such position,
    [Chord.__getitem__] raises KeyError. *)
Definition Chord_getitem (c : Chord) (i : nat) : result Pitch :=
  match nth_error c i with
  | Some p => Ok p
  | None => Raise KeyError
  end.

(** [chord.pitches.index(p)]: the first position holding a pitch equal
    to [p]. *)
Fixpoint index (c : Chord) (p : Pitch) : result nat :=
  match c with
  | [] => Raise ValueError
  | q :: rest => if Pitch_eqb q p then Ok 0%nat else i <- index rest p ;; Ok (S i)
  end.

(** ** Voicings of one chord *)

(** [itertools.permutations(noteNames, 3)] of three names, under the
    assertion [len(noteNames) == 3]. *)
Definition permutations3 (noteNames : list Name) : result (list (Name * Name * Name)) :=
  match noteNames with
  | [x; y; z] =>
      Ok [(x, y, z); (x, z, y); (y, x, z); (y, z, x); (z, x, y); (z, y, x)]
  | _ => Raise AssertionError
  end.

Definition _voiceTriadUnordered (noteNames : list Name) : result (list Chord) :=
  perms <- permutations3 noteNames ;;
  Ok (flat_map (fun '(tenor, alto, soprano) =>
        flat_map (fun sopranoNote =>
          let altoMin := max2 (fst ALTO_RANGE) (transpose_down_P8 sopranoNote) in
          let altoMax := min2 (snd ALTO_RANGE) sopranoNote in
          flat_map (fun altoNote =>
            let tenorMin := max2 (fst TENOR_RANGE) (transpose_down_P8 altoNote) in
            let tenorMax := min2 (snd TENOR_RANGE) altoNote in
            map (fun tenorNote => [tenorNote; altoNote; sopranoNote])
                (voiceNote tenor (tenorMin, tenorMax)))
            (voiceNote alto (altoMin, altoMax)))
          (voiceNote soprano SOPRANO_RANGE))
        perms).

(** The test [bassNote <= chord.bass()]. *)
Definition belowBass (bassNote : Pitch) (chord : Chord) : bool :=
  match Chord_bass chord with
  | Some lowest => Pitch_leb bassNote lowest
  | None => false
  end.

Definition _voiceChord (noteNames : list Name) : result (list Chord) :=
  match noteNames with
  | [bass; n1; n2; n3] =>
      chords <- _voiceTriadUnordered [n1; n2; n3] ;;
      Ok (flat_map (fun chord =>
            flat_map (fun bassNote =>
              if belowBass bassNote chord then [Chord_add chord bassNote] else [])
              (voiceNote bass BASS_RANGE))
            chords)
  | _ => Raise AssertionError
  end.

(** What [voiceChord] reads of the chord that music21 built from a roman
    numeral: the names of its pitches (bass first), whether it has a
    seventh, its inversion, the names of its root, third and fifth, and
    its numeral.  The record describes a chord in which music21 finds a
    third and a fifth; of a chord that lacks one, [chord.third] or
    [chord.fifth] is [None] and has no name to read. *)
Record RomanNumeral : Type := mkRomanNumeral {
  pitchNames : list Name;
  containsSeventh : bool;
  inversion : Z;
  rootName : Name;
  thirdName : Name;
  fifthName : Name;
  romanNumeral : string
}.

Definition voiceChord (chord : RomanNumeral) : result (list Chord) :=
  let noteNames := pitchNames chord in
  if containsSeventh chord then
    _voiceChord noteNames
  else if inversion chord =? 2 then
    match noteNames with
    | [] => Raise IndexError
    | first :: _ => _voiceChord (noteNames ++ [first])
    end
  else
    doubledRoot <- _voiceChord (noteNames ++ [rootName chord]) ;;
    doubledThird <- _voiceChord (noteNames ++ [thirdName chord]) ;;
    doubledFifth <- _voiceChord (noteNames ++ [fifthName chord]) ;;
    omittedFifth <-
      (if String.eqb (romanNumeral chord) "I" && (inversion chord =? 0)
       then _voiceChord (repeat (rootName chord) 3 ++ [thirdName chord])
       else Ok []) ;;
    Ok (doubledRoot ++ doubledThird ++ doubledFifth ++ omittedFifth).

(** ** The cost of a transition *)

(** The key's tonic and dominant, by name. *)
Record Key : Type := mkKey { getTonic : Name; getDominant : Name }.

Definition pairs : list (nat * nat) :=
  flat_map (fun i => map (fun j => (i, j)) (seq (i + 1) (4 - (i + 1)))) (seq 0 4).

Fixpoint foldR {X St : Type} (f : St -> X -> result St) (l : list X) (s : St) : result St :=
  match l with
  | [] => Ok s
  | x :: rest => s' <- f s x ;; foldR f rest s'
  end.

(** [a or b] on tests that may raise: [b] is evaluated only when [a] is
    false. *)
Definition orR (a b : result bool) : result bool :=
  x <- a ;; if x then Ok true else b.

(** [c[i] > d[j]] and [c[i] < d[j]] on chords. *)
Definition gtR (c : Chord) (i : nat) (d : Chord) (j : nat) : result bool :=
  p <- Chord_getitem c i ;; q <- Chord_getitem d j ;; Ok (Pitch_gtb p q).

Definition ltR (c : Chord) (i : nat) (d : Chord) (j : nat) : result bool :=
  p <- Chord_getitem c i ;; q <- Chord_getitem d j ;; Ok (Pitch_ltb p q).

(** The test of the "overlapping voices" rule. *)
Definition overlapping (chord1 chord2 : Chord) : result bool :=
  orR (gtR chord2 0 chord1 1)
 (orR (ltR chord2 1 chord1 0)
 (orR (gtR chord2 1 chord1 2)
 (orR (ltR chord2 2 chord1 1)
 (orR (gtR chord2 2 chord1 3)
      (ltR chord2 3 chord1 2))))).

(** [abs(chord1.pitches[i].midi - chord2.pitches[i].midi)]. *)
Definition jump (chord1 chord2 : Chord) (i : nat) : result Z :=
  p <- getitem chord1 i ;; q <- getitem chord2 i ;; Ok (Z.abs (midi p - midi q)).

(** The body of the loop over the pairs of voices [i < j]. *)
Definition motion (chord1 chord2 : Chord) (score : Z) (ij : nat * nat) : result Z :=
  let '(i, j) := ij in
  t1 <- getitem chord1 j ;; t2 <- getitem chord2 j ;;
  b1 <- getitem chord1 i ;; b2 <- getitem chord2 i ;;
  let i1 := midi t1 - midi b1 in
  let i2 := midi t2 - midi b2 in
  let score := if (i1 mod 12 =? i2 mod 12) && (i2 mod 12 =? 7) then score + 60 else score in
  let score := if (i1 mod 12 =? i2 mod 12) && (i2 mod 12 =? 0) then score + 100 else score in
  let score :=
    if (Pitch_gtb t2 t1 && Pitch_gtb b2 b1) || (Pitch_ltb t2 t1 && Pitch_ltb b2 b1)
    then score + 1 else score in
  Ok score.

Section Cost.

(** music21 finds the root, the third and the seventh of a chord from its
    pitches; the program takes what it finds.  [Chord.third] and
    [Chord.seventh] are [None] when the chord has none. *)
Variable Chord_root : Chord -> Pitch.
Variable Chord_third : Chord -> option Pitch.
Variable Chord_seventh : Chord -> option Pitch.

(** "Chordal 7th should resolve downward or stay". *)
Definition seventhRule (chord1 chord2 : Chord) (score : Z) : result Z :=
  match Chord_seventh chord1 with
  | Some seventh =>
      seventhVoice <- index chord1 seventh ;;
      q <- getitem chord2 seventhVoice ;;
      let delta := midi q - midi seventh in
      Ok (if (delta <? -2) || (0 <? delta) then score + 80 else score)
  | None => Ok score
  end.

(** "V->I means ti->do or ti->sol". *)
Definition leadingToneRule (key : Key) (chord1 chord2 : Chord) (score : Z) : result Z :=
  if Name_eqb (name (Chord_root chord1)) (getDominant key)
     && Name_eqb (name (Chord_root chord2)) (getTonic key)
  then
    match Chord_third chord1 with
    | Some third =>
        voice <- index chord1 third ;;
        q <- getitem chord2 voice ;;
        let delta := midi q - midi third in
        Ok (if negb (delta =? 1) && (negb (delta =? -4) || (voice =? 3)%nat)
            then score + 80 else score)
    | None => Raise ValueError
    end
  else Ok score.

Definition cost (key : Key) (chord1 chord2 : Chord) : result Z :=
  let score := 0 in
  crossed <- overlapping chord1 chord2 ;;
  let score := if crossed then score + 50 else score in
  d0 <- jump chord1 chord2 0 ;;
  let score := score + (d0 / 2) ^ 2 in
  d1 <- jump chord1 chord2 1 ;;
  let score := score + d1 ^ 2 in
  d2 <- jump chord1 chord2 2 ;;
  let score := score + d2 ^ 2 in
  d3 <- jump chord1 chord2 3 ;;
  let score := score + d3 ^ 2 / 10 in
  score <- foldR (motion chord1 chord2) pairs score ;;
  score <- seventhRule chord1 chord2 score ;;
  score <- leadingToneRule key chord1 chord2 score ;;
  Ok score.

(** ** The dynamic program *)

(** A Python number of the table: an integer or [float('inf')]. *)
Inductive number : Type := Int (z : Z) | inf.

Definition number_add (a : number) (z : Z) : number :=
  match a with
  | Int x => Int (x + z)
  | inf => inf
  end.

Definition number_ltb (a b : number) : bool :=
  match a, b with
  | Int x, Int y => x <? y
  | Int _, inf => true
  | inf, _ => false
  end.

(** One dictionary [dp[i]], in insertion order.  Chords are hashed by
    identity and every voicing is a new object, so every voicing is a key
    of its own, known by its position; the predecessor is such a key of
    the layer before, or [None]. *)
Definition entry : Type := (Chord * (number * option nat))%type.
Definition layer : Type := list entry.

(** The loop over [dp[i - 1].items()] for one voicing [v]. *)
Definition bestStep (key : Key) (v : Chord) (best : number * option nat)
    (item : nat * entry) : result (number * option nat) :=
  let '(k, (pv, (pcost, _))) := item in
  c <- cost key pv v ;;
  let ccost := number_add pcost c in
  Ok (if number_ltb ccost (fst best) then (ccost, Some k) else best).

Definition enumerate {X : Type} (l : list X) : list (nat * X) :=
  combine (seq 0 (List.length l)) l.

Definition best (key : Key) (previous : layer) (v : Chord) : result (number * option nat) :=
  foldR (bestStep key v) (enumerate previous) (inf, None).

Fixpoint mapR {X Y : Type} (f : X -> result Y) (l : list X) : result (list Y) :=
  match l with
  | [] => Ok []
  | x :: rest => y <- f x ;; ys <- mapR f rest ;; Ok (y :: ys)
  end.

(** The body of the loop over the progression: layer [i] from the chord
    and the layers before it. *)
Definition fillLayer (key : Key) (dp : list layer) (chord : RomanNumeral) : result (list layer) :=
  voicings <- voiceChord chord ;;
  match dp with
  | [] => Ok [map (fun v => (v, (Int 0, None))) voicings]
  | _ :: _ =>
      l <- mapR (fun v => b <- best key (last dp []) v ;; Ok (v, b)) voicings ;;
      Ok (dp ++ [l])
  end.

(** [min(dp[-1].items(), key=lambda p: p[1][0])]: the first entry of
    least cost, with its position.  [minStep] is one step of [min]: an
    item replaces the one kept when its key is strictly less. *)
Definition minStep (acc : option (nat * number)) (item : nat * entry)
  : option (nat * number) :=
  let '(k, (_, (c, _))) := item in
  match acc with
  | None => Some (k, c)
  | Some (_, m) => if number_ltb c m then Some (k, c) else acc
  end.

Definition minEntry (l : layer) : option (nat * number) :=
  fold_left minStep (enumerate l) None.

(** The backtrace, over the layers from the last to the first. *)
Fixpoint backtrace (layers : list layer) (cur : option nat) (ret : list Chord)
  : result (list Chord) :=
  match layers with
  | [] => Ok (rev ret)
  | l :: before =>
      match cur with
      | None => Raise KeyError
      | Some k =>
          match nth_error l k with
          | Some (v, (_, predecessor)) => backtrace before predecessor (ret ++ [v])
          | None => Raise KeyError
          end
      end
  end.

(** [voiceProgression]: the costs printed and the result.  The roman
    numerals are taken as music21 resolved them in the key. *)
Definition voiceProgression (key : Key) (chordProgression : list RomanNumeral)
  : list number * result (list Chord) :=
  match foldR (fillLayer key) chordProgression [] with
  | Raise e => ([], Raise e)
  | Ok dp =>
      match rev dp with
      | [] => ([], Raise IndexError)
      | final :: _ =>
          match minEntry final with
          | None => ([], Raise ValueError)
          | Some (cur, totalCost) => ([totalCost], backtrace (rev dp) (Some cur) [])
          end
      end
  end.

(** The least of a list of integers, none for the empty list. *)
Definition minimum (l : list Z) : option Z :=
  match l with
  | [] => None
  | x :: rest => Some (fold_left Z.min rest x)
  end.

(** The brute-force comparison of the specification for two chords: the
    minimum of [cost(key, u, v)] over all pairs of a voicing [u] of the
    first chord and a voicing [v] of the second. *)
Definition bruteForceCost (key : Key) (V0 V1 : list Chord) : result (option Z) :=
  costs <- mapR (fun uv => cost key (fst uv) (snd uv)) (list_prod V0 V1) ;;
  Ok (minimum costs).

(** The invariant of the loop over [dp[i - 1].items()] for a voicing [v]
    when the layer before is the first one: the best kept is the cost of
    reaching [v] from one of the voicings seen, and none seen does
    better. *)
Definition bestOf (key : Key) (v : Chord) (seen : list Chord)
    (acc : number * option nat) : Prop :=
  (seen = [] /\ acc = (inf, None))
  \/ exists k u m,
      acc = (Int m, Some k)
      /\ nth_error seen k = Some u
      /\ cost key u v = Ok m
      /\ forall u' z, In u' seen -> cost key u' v = Ok z -> m <= z.

(** An entry of the second layer: the least cost of reaching its voicing
    from a voicing of the first chord, and the position of one that
    attains it. *)
Definition optimalEntry (key : Key) (V0 : list Chord) (v : Chord) (e : entry) : Prop :=
  exists k u m,
    e = (v, (Int m, Some k))
    /\ nth_error V0 k = Some u
    /\ cost key u v = Ok m
    /\ forall u' z, In u' V0 -> cost key u' v = Ok z -> m <= z.

End Cost.

(** ** The penalties of [cost], rule by rule

    What each rule of [cost] adds to a score of 0. *)

Definition overlapPenalty (chord1 chord2 : Chord) : result Z :=
  crossed <- overlapping chord1 chord2 ;; Ok (if crossed then 50 else 0).

Definition leapPenalty (chord1 chord2 : Chord) : result Z :=
  d0 <- jump chord1 chord2 0 ;;
  d1 <- jump chord1 chord2 1 ;;
  d2 <- jump chord1 chord2 2 ;;
  d3 <- jump chord1 chord2 3 ;;
  Ok ((d0 / 2) ^ 2 + d1 ^ 2 + d2 ^ 2 + d3 ^ 2 / 10).

Definition motionPenalty (chord1 chord2 : Chord) : result Z :=
  foldR (motion chord1 chord2) pairs 0.

(** The test of the overlap rule on the voices of two four-part chords,
    bass, tenor, alto and soprano of the earlier chord [A] and of the
    later chord [B]. *)
Definition voicesOverlap (bA tA aA sA bB tB aB sB : Pitch) : bool :=
  Pitch_gtb bB tA
  || Pitch_ltb tB bA || Pitch_gtb tB aA
  || Pitch_ltb aB tA || Pitch_gtb aB sA
  || Pitch_ltb sB aA.

(** The same test with the voices as the specification names them. *)
Definition specifiedOverlap (bA tA aA sA bB tB aB sB : Pitch) : bool :=
  Pitch_gtb sB aA
  || Pitch_ltb aB bA || Pitch_gtb aB tA
  || Pitch_ltb tB aA || Pitch_gtb tB sA
  || Pitch_ltb bB tA.

(** The leading-tone penalty for the voice at position [voice] (0 the
    bass, 3 the soprano) moving by [delta] semitones. *)
Definition leadingTonePenalty (voice : nat) (delta : Z) : Z :=
  if (delta =? 1) || ((delta =? -4) && negb (voice =? 3)%nat) then 0 else 80.

(** The same penalty as the specification words it: the fall of four
    semitones is allowed to every voice but the bass. *)
Definition specifiedLeadingTonePenalty (voice : nat) (delta : Z) : Z :=
  if (delta =? 1) || ((delta =? -4) && negb (voice =? 0)%nat) then 0 else 80.

(** The doublings of a chord as the specification lists them, each a
    multiset of four names written as a list: the chord itself when it
    has a seventh; the fifth doubled in second inversion; else the root,
    the third and the fifth doubled in turn, and for the tonic triad in
    root position also the root tripled with the third. *)
Definition doublings (chord : RomanNumeral) : list (list Name) :=
  let r := rootName chord in
  let t := thirdName chord in
  let f := fifthName chord in
  if containsSeventh chord then [pitchNames chord]
  else if inversion chord =? 2 then [[r; t; f; f]]
  else [[r; r; t; f]; [r; t; t; f]; [r; t; f; f]]
       ++ (if String.eqb (romanNumeral chord) "I" && (inversion chord =? 0)
           then [[r; r; r; t]] else []).

(** A triad as music21 hands it over: its pitches are its root, third
    and fifth in some order, and in second inversion the first of them,
    the bass, is the fifth. *)
Definition triadWellFormed (chord : RomanNumeral) : Prop :=
  containsSeventh chord = false ->
  Permutation (pitchNames chord) [rootName chord; thirdName chord; fifthName chord]
  /\ (inversion chord = 2 -> hd_error (pitchNames chord) = Some (fifthName chord)).

(** ** Sample chords

    The chords of B-flat major that the program's own progression starts
    and ends with, and a few pitches, for the examples below. *)

Definition pitch (s : Step) (o : Z) : Pitch := mkPitch (natural s) o.

Definition tonicBflat : RomanNumeral :=
  mkRomanNumeral [flat B; natural D; natural F] false 0
                 (flat B) (natural D) (natural F) "I".

Definition dominantBflat : RomanNumeral :=
  mkRomanNumeral [natural F; natural A; natural C] false 0
                 (natural F) (natural A) (natural C) "V".

Definition keyBflat : Key := mkKey (flat B) (natural F).

(** A stand-in for music21's analysis in the examples: the lowest pitch
    as the root, the highest (or the second from below) as the third, and
    no seventh. *)
Definition lowestAsRoot (c : Chord) : Pitch := nth 0 c (pitch C 0).
Definition highestAsThird (c : Chord) : option Pitch := nth_error c 3.
Definition secondAsThird (c : Chord) : option Pitch := nth_error c 1.
Definition noSeventh (c : Chord) : option Pitch := None.

(** Voicings of the dominant and of the tonic of B-flat major: F3 C4 F4
    A4 and B-flat2 D4 F4 B-flat4; the dominant in first inversion, A2 C4
    F4 C5, and the tonic in second inversion, F2 B-flat3 D4 B-flat4. *)
Definition dominantVoicing : Chord := [pitch F 3; pitch C 4; pitch F 4; pitch A 4].
Definition tonicVoicing : Chord :=
  [mkPitch (flat B) 2; pitch D 4; pitch F 4; mkPitch (flat B) 4].
Definition dominantSixVoicing : Chord := [pitch A 2; pitch C 4; pitch F 4; pitch C 5].
Definition tonicSixFourVoicing : Chord :=
  [pitch F 2; mkPitch (flat B) 3; pitch D 4; mkPitch (flat B) 4].

(** A voicing of the C major triad with the root doubled, C3 G3 E4 C5,
    and four pitches no two of which are a fifth or an octave apart,
    C3 E3 A3 D4. *)
Definition tonicCVoicing : Chord := [pitch C 3; pitch G 3; pitch E 4; pitch C 5].
Definition quartalVoicing : Chord := [pitch C 3; pitch E 3; pitch A 3; pitch D 4].

Definition tonicC : RomanNumeral :=
  mkRomanNumeral [natural C; natural E; natural G] false 0
                 (natural C) (natural E) (natural G) "I".

(** A dominant of B-flat major with its third, the leading tone, in the
    tenor and in the soprano, F2 A3 C4 A4, and a tonic with the root in
    the tenor, B-flat2 B-flat3 D4 F4. *)
Definition doubledThirdVoicing : Chord := [pitch F 2; pitch A 3; pitch C 4; pitch A 4].
Definition tonicLowVoicing : Chord :=
  [mkPitch (flat B) 2; mkPitch (flat B) 3; pitch D 4; pitch F 4].

(** The dominant ninth of B-flat major, a chord of five pitches. *)
Definition dominantNinthBflat : RomanNumeral :=
  mkRomanNumeral [natural F; natural A; natural C; flat E; natural G] true 0
                 (natural F) (natural A) (natural C) "V".

(** The tonic of B-flat major in second inversion. *)
Definition tonicSixFourBflat : RomanNumeral :=
  mkRomanNumeral [natural F; flat B; natural D] false 2
                 (flat B) (natural D) (natural F) "I".

(** More stand-ins for music21's analysis: no third found, and the
    highest pitch as the seventh. *)
Definition noThird (c : Chord) : option Pitch := None.
Definition highestAsSeventh (c : Chord) : option Pitch := nth_error c 3.

(** The dominant seventh of B-flat major, F3 A3 C4 E-flat4, a tonic it
    resolves to, B-flat2 F3 B-flat3 D4, and a chord of three notes. *)
Definition dominantSeventhVoicing : Chord :=
  [pitch F 3; pitch A 3; pitch C 4; mkPitch (flat E) 4].
Definition tonicCloseVoicing : Chord :=
  [mkPitch (flat B) 2; pitch F 3; mkPitch (flat B) 3; pitch D 4].
Definition threeNotes : Chord := [pitch C 3; pitch E 3; pitch G 3].

(** The voicings of a chord, none when [voiceChord] raises. *)
Definition voicingsOf (chord : RomanNumeral) : list Chord :=
  match voiceChord chord with
  | Ok voicings => voicings
  | Raise _ => []
  end.

(** ** Predicates of the properties *)

(** A pitch lies in a range by height. *)
Definition inRange (p : Pitch) (r : PitchRange) : Prop :=
  ps (fst r) <= ps p <= ps (snd r).

(** The heights of a four-part voicing, bass first, keep the order of the
    voices and the octave between neighbouring upper voices, and every
    voice stays in its range. *)
Definition wellVoiced (v : Chord) : Prop :=
  exists bass tenor alto soprano,
    v = [bass; tenor; alto; soprano]
    /\ ps bass <= ps tenor /\ ps tenor <= ps alto /\ ps alto <= ps soprano
    /\ ps alto - ps tenor <= 12
    /\ ps soprano - ps alto <= 12
    /\ inRange soprano SOPRANO_RANGE
    /\ inRange alto ALTO_RANGE
    /\ inRange tenor TENOR_RANGE
    /\ inRange bass BASS_RANGE.

(** The upper voices as [_voiceTriadUnordered] places them. *)
Definition upperVoiced (c : Chord) : Prop :=
  exists tenor alto soprano,
    c = [tenor; alto; soprano]
    /\ ps tenor <= ps alto /\ ps alto <= ps soprano
    /\ ps alto - ps tenor <= 12
    /\ ps soprano - ps alto <= 12
    /\ inRange soprano SOPRANO_RANGE
    /\ inRange alto ALTO_RANGE
    /\ inRange tenor TENOR_RANGE.

(** The invariant of the loop of [min]: the entry kept is one of those
    seen, and none seen costs less. *)
Definition leastOf (l : layer) (acc : option (nat * number)) : Prop :=
  match acc with
  | None => l = []
  | Some (k, c) =>
      (exists v p, nth_error l k = Some (v, (c, p)))
      /\ forall e, In e l -> number_ltb (fst (snd e)) c = false
  end.



(** A name that stays in the octave it is written in: its height above
    the C of the octave is between 0 and 11 (B sharp and C flat do
    not). *)
Definition plain (n : Name) : Prop := 0 <= stepPc (step n) + alter n <= 11.

(** The number of pitches [voiceChord] expects of a chord. *)
Definition expectedPitches (chord : RomanNumeral) : nat :=
  if containsSeventh chord then 4%nat else 3%nat.

(** The lists of names that [voiceChord] hands to [_voiceChord], in the
    order it does. *)
Definition alternatives (chord : RomanNumeral) : list (list Name) :=
  let noteNames := pitchNames chord in
  if containsSeventh chord then [noteNames]
  else if inversion chord =? 2 then
    match noteNames with
    | [] => []
    | first :: _ => [noteNames ++ [first]]
    end
  else
    [noteNames ++ [rootName chord];
     noteNames ++ [thirdName chord];
     noteNames ++ [fifthName chord]]
    ++ (if String.eqb (romanNumeral chord) "I" && (inversion chord =? 0)
        then [repeat (rootName chord) 3 ++ [thirdName chord]] else []).

(** ** Paths through a progression *)

(** A sequence of chords that takes one voicing from each list. *)
Definition throughVoicings (Vs : list (list Chord)) (path : list Chord) : Prop :=
  Forall2 (fun V u => In u V) Vs path.

Section Paths.

Variable Chord_root : Chord -> Pitch.
Variable Chord_third : Chord -> option Pitch.
Variable Chord_seventh : Chord -> option Pitch.

(** The total cost of a sequence of chords: the sum of the costs of its
    transitions. *)
Fixpoint pathCost (key : Key) (path : list Chord) : result Z :=
  match path with
  | [] => Ok 0
  | u :: rest =>
      match rest with
      | [] => Ok 0
      | v :: _ =>
          c <- cost Chord_root Chord_third Chord_seventh key u v ;;
          r <- pathCost key rest ;;
          Ok (c + r)
      end
  end.

(** What the table knows of the entry at position [j] of its last layer:
    its cost is that of a cheapest path through the voicings before it
    that ends in its voicing, and the backtrace from it returns such a
    path. *)
Definition reaches (key : Key) (Vs0 : list (list Chord)) (dp : list layer)
    (j : nat) (e : entry) : Prop :=
  exists m q,
    fst (snd e) = Int m
    /\ throughVoicings Vs0 q
    /\ pathCost key (q ++ [fst e]) = Ok m
    /\ (forall q' z, throughVoicings Vs0 q' -> pathCost key (q' ++ [fst e]) = Ok z -> m <= z)
    /\ forall ret, backtrace (rev dp) (Some j) ret = Ok ((q ++ [fst e]) ++ rev ret).

(** The invariant of the loop over the progression: the table has a layer
    for each chord so far, and the last layer holds the voicings of the
    last chord, each with its cheapest path. *)
Definition tableOptimal (key : Key) (Vs : list (list Chord)) (dp : list layer) : Prop :=
  exists Vs0 V dp0 l,
    Vs = Vs0 ++ [V] /\ dp = dp0 ++ [l]
    /\ map fst l = V
    /\ forall j e, nth_error l j = Some e -> reaches key Vs0 dp j e.

(** The invariant of the loop over [dp[i - 1].items()] for a voicing [v]:
    the best kept is the least sum, over the entries seen, of the entry's
    cost and the cost of the transition to [v]. *)
Definition bestAmong (key : Key) (v : Chord) (seen : layer)
    (acc : number * option nat) : Prop :=
  (seen = [] /\ acc = (inf, None))
  \/ exists k u mk pk c,
      acc = (Int (mk + c), Some k)
      /\ nth_error seen k = Some (u, (Int mk, pk))
      /\ cost Chord_root Chord_third Chord_seventh key u v = Ok c
      /\ forall u' m' p' z,
          In (u', (Int m', p')) seen ->
          cost Chord_root Chord_third Chord_seventh key u' v = Ok z ->
          mk + c <= m' + z.

End Paths.

(** ** The score *)

(** A note of the score, with the direction of its stem; a voice is a
    line of notes; a part is what [Part([...])] is given, a clef and
    voices; a score is its parts.  Every note has the length music21 gives
    a new note, which is left out. *)
Record Note : Type := mkNote { Note_pitch : Pitch; stemDirection : string }.

Definition Voice : Type := list Note.

Inductive Clef : Type := TrebleClef | BassClef.

Inductive Element : Type := ClefOf (c : Clef) | VoiceOf (v : Voice).

Definition Part : Type := list Element.
Definition Score : Type := list Part.

(** The body of the loop of [showChords] on the four voices, [voices[0]]
    to [voices[3]]: the pitches of the chord are unpacked into four
    notes, which raises ValueError unless there are four of them, and
    each note is appended to its voice. *)
Definition appendChord (voices : Voice * Voice * Voice * Voice) (chord : Chord)
  : result (Voice * Voice * Voice * Voice) :=
  let '(voices0, voices1, voices2, voices3) := voices in
  match chord with
  | [bass; tenor; alto; soprano] =>
      Ok (voices0 ++ [mkNote soprano "up"%string],
          voices1 ++ [mkNote alto "down"%string],
          voices2 ++ [mkNote tenor "up"%string],
          voices3 ++ [mkNote bass "down"%string])
  | _ => Raise ValueError
  end.

(** [showChords]: the score that is shown. *)
Definition showChords (chords : list Chord) : result Score :=
  voices <- foldR appendChord chords ([], [], [], []) ;;
  let '(voices0, voices1, voices2, voices3) := voices in
  let female := [ClefOf TrebleClef; VoiceOf voices0; VoiceOf voices1] in
  let male := [ClefOf BassClef; VoiceOf voices2; VoiceOf voices3] in
  Ok [female; male].

(** [showVoicings], on the chord that music21 resolves the numeral to in
    the key. *)
Definition showVoicings (chord : RomanNumeral) : result Score :=
  voicings <- voiceChord chord ;;
  showChords voicings.

(** The line of the pitches at one position of the chords, with one stem
    direction. *)
Definition voiceLine (i : nat) (stem : string) (chords : list Chord) : Voice :=
  flat_map (fun c : Chord =>
              match nth_error c i with
              | Some p => [mkNote p stem]
              | None => []
              end) chords.

(** A note is not below another. *)
Definition above (upper lower : Note) : Prop :=
  ps (Note_pitch lower) <= ps (Note_pitch upper).

(** A score of four lines with a note for each chord, the soprano above
    the alto on the treble staff and the tenor above the bass on the
    bass staff, stems up for the upper and down for the lower voice of
    each staff, in which no voice goes below the voice under it. *)
Definition fourPartScore (n : nat) (score : Score) : Prop :=
  exists sopranos altos tenors basses : Voice,
    score = [[ClefOf TrebleClef; VoiceOf sopranos; VoiceOf altos];
             [ClefOf BassClef; VoiceOf tenors; VoiceOf basses]]
    /\ List.length basses = n
    /\ Forall2 above sopranos altos
    /\ Forall2 above altos tenors
    /\ Forall2 above tenors basses
    /\ Forall (fun note => stemDirection note = "up"%string) (sopranos ++ tenors)
    /\ Forall (fun note => stemDirection note = "down"%string) (altos ++ basses).

(** The layers of a table hold the voicings of the chords, layer by
    layer. *)
Definition layersOf (Vs : list (list Chord)) (dp : list layer) : Prop :=
  Forall2 (fun (V : list Chord) (l : layer) => map fst l = V) Vs dp.

(** The progression tonic, dominant, tonic of B-flat major, for the
    examples. *)
Definition cadenceBflat : list RomanNumeral := [tonicBflat; dominantBflat; tonicBflat].

(** * Properties *)

(** ** Results *)

Lemma bind_Ok {X Y : Type} (m : result X) (k : X -> result Y) (y : Y) :
  bind m k = Ok y -> exists x, m = Ok x /\ k x = Ok y.
Proof.
  destruct m as [x | e]; simpl; [| discriminate]. intros H. exists x. auto.
Qed.

Ltac bind_inv H :=
  let x := fresh "x" in
  let Hx := fresh "Hx" in
  apply bind_Ok in H; destruct H as [x [Hx H]].

(** ** Pitches and ranges *)

Lemma Pitch_leb_ps (p q : Pitch) : Pitch_leb p q = true -> ps p <= ps q.
Proof.
  unfold Pitch_leb, Pitch_ltb, Pitch_eqb, Name_eqb, ps.
  intros H. apply orb_true_iff in H. destruct H as [H | H].
  - apply Z.ltb_lt in H. lia.
  - apply andb_true_iff in H. destruct H as [H Ho].
    apply andb_true_iff in H. destruct H as [Hs Ha].
    apply Z.eqb_eq in Ho, Ha.
    assert (step (name p) = step (name q)) as ->
      by (destruct (step (name p)), (step (name q)); simpl in Hs; congruence).
    lia.
Qed.

Lemma ps_max2 (a b : Pitch) : ps (max2 a b) = Z.max (ps a) (ps b).
Proof.
  unfold max2, Pitch_gtb. destruct (Z.ltb_spec (ps a) (ps b)); lia.
Qed.

Lemma ps_min2 (a b : Pitch) : ps (min2 a b) = Z.min (ps a) (ps b).
Proof.
  unfold min2, Pitch_ltb. destruct (Z.ltb_spec (ps b) (ps a)); lia.
Qed.

Lemma ps_transpose_down_P8 (p : Pitch) : ps (transpose_down_P8 p) = ps p - 12.
Proof. unfold transpose_down_P8, ps. cbn [name octave]. lia. Qed.

Lemma In_range (lo hi k : Z) : In k (range lo hi) <-> lo <= k < hi.
Proof.
  unfold range. rewrite in_map_iff. split.
  - intros [n [<- Hn]]. apply in_seq in Hn. lia.
  - intros Hk. exists (Z.to_nat (k - lo)). split; [lia |].
    apply in_seq. lia.
Qed.

(** What [voiceNote] yields: the pitches of the given name whose octave
    number lies between those of the bounds and that pass the test. *)
Lemma In_voiceNote (noteName : Name) (r : PitchRange) (p : Pitch) :
  In p (voiceNote noteName r) <->
  name p = noteName /\ octave (fst r) <= octave p <= octave (snd r)
  /\ Pitch_leb (fst r) p = true /\ Pitch_leb p (snd r) = true.
Proof.
  unfold voiceNote. rewrite filter_In, in_map_iff, andb_true_iff. split.
  - intros [[o [<- Ho]] Ht]. apply In_range in Ho. simpl. repeat split; try lia; tauto.
  - intros [Hn [Ho Ht]]. split; [| exact Ht].
    exists (octave p). split; [destruct p; simpl in *; congruence |].
    apply In_range. lia.
Qed.

Lemma voiceNote_inRange (noteName : Name) (r : PitchRange) (p : Pitch) :
  In p (voiceNote noteName r) -> inRange p r.
Proof.
  intros H. apply In_voiceNote in H. destruct H as [_ [_ [Hl Hu]]].
  split; apply Pitch_leb_ps; assumption.
Qed.

(** ** Voicings of one chord *)

Lemma _voiceTriadUnordered_upperVoiced (noteNames : list Name) (chords : list Chord) (c : Chord) :
  _voiceTriadUnordered noteNames = Ok chords -> In c chords -> upperVoiced c.
Proof.
  unfold _voiceTriadUnordered. destruct (permutations3 noteNames) as [perms | e]; simpl; [| discriminate].
  intros Heq Hin. injection Heq as <-.
  apply in_flat_map in Hin. destruct Hin as [[[tenor alto] soprano] [_ Hin]].
  apply in_flat_map in Hin. destruct Hin as [s [Hs Hin]].
  apply in_flat_map in Hin. destruct Hin as [a [Ha Hin]].
  apply in_map_iff in Hin. destruct Hin as [t [<- Ht]].
  apply voiceNote_inRange in Hs, Ha, Ht.
  unfold inRange in *. simpl fst in *. simpl snd in *.
  rewrite ps_max2, ps_min2, ps_transpose_down_P8 in Ha, Ht.
  exists t, a, s. unfold inRange.
  change (ps (fst SOPRANO_RANGE)) with 60. change (ps (snd SOPRANO_RANGE)) with 79.
  change (ps (fst ALTO_RANGE)) with 55. change (ps (snd ALTO_RANGE)) with 72.
  change (ps (fst TENOR_RANGE)) with 48. change (ps (snd TENOR_RANGE)) with 67.
  change (ps (mkPitch (natural C) 4)) with 60 in Hs.
  change (ps (mkPitch (natural G) 5)) with 79 in Hs.
  change (ps (mkPitch (natural G) 3)) with 55 in Ha.
  change (ps (mkPitch (natural C) 5)) with 72 in Ha.
  change (ps (mkPitch (natural C) 3)) with 48 in Ht.
  change (ps (mkPitch (natural G) 4)) with 67 in Ht.
  repeat split; lia.
Qed.

(** Adding a bass that is not above the lowest of three ordered upper
    voices gives four pitches whose heights are those of the bass and of
    the upper voices, in this order. *)
Lemma Chord_add_heights (t a s b : Pitch) :
  ps b <= ps t -> ps t <= ps a -> ps a <= ps s ->
  exists w x y z,
    Chord_add [t; a; s] b = [w; x; y; z]
    /\ ps w = ps b /\ ps x = ps t /\ ps y = ps a /\ ps z = ps s.
Proof.
  intros Hb Ht Ha. unfold Chord_add, sortAscending. simpl. unfold Pitch_ltb.
  repeat match goal with
         | |- context [ ?x <? ?y ] => destruct (Z.ltb_spec x y); simpl; unfold Pitch_ltb
         end;
    try lia; do 4 eexists; (split; [reflexivity |]); lia.
Qed.

Lemma Chord_bass_ordered (t a s : Pitch) :
  ps t <= ps a -> ps a <= ps s -> Chord_bass [t; a; s] = Some t.
Proof.
  intros Ht Ha. unfold Chord_bass. simpl. unfold Pitch_ltb.
  destruct (Z.ltb_spec (ps a) (ps t)); [lia |].
  destruct (Z.ltb_spec (ps s) (ps t)); [lia | reflexivity].
Qed.

Lemma _voiceChord_wellVoiced (noteNames : list Name) (voicings : list Chord) (v : Chord) :
  _voiceChord noteNames = Ok voicings -> In v voicings -> wellVoiced v.
Proof.
  unfold _voiceChord.
  destruct noteNames as [| bass [| n1 [| n2 [| n3 [| n4 rest]]]]]; try discriminate.
  destruct (_voiceTriadUnordered [n1; n2; n3]) as [chords | e] eqn:Hchords; simpl; [| discriminate].
  intros Heq Hin. injection Heq as <-.
  apply in_flat_map in Hin. destruct Hin as [chord [Hchord Hin]].
  apply in_flat_map in Hin. destruct Hin as [bassNote [Hbass Hin]].
  destruct (_voiceTriadUnordered_upperVoiced _ _ _ Hchords Hchord)
    as [t [a [s [-> [Hta [Has [Hoct1 [Hoct2 [Hs [Ha Ht]]]]]]]]]].
  unfold belowBass in Hin. rewrite (Chord_bass_ordered t a s Hta Has) in Hin.
  destruct (Pitch_leb bassNote t) eqn:Hle; [| contradiction].
  destruct Hin as [<- | []].
  apply Pitch_leb_ps in Hle. apply voiceNote_inRange in Hbass.
  destruct (Chord_add_heights t a s bassNote Hle Hta Has)
    as [w [x [y [z [-> [Hw [Hx [Hy Hz]]]]]]]].
  exists w, x, y, z. unfold inRange in *. rewrite Hw, Hx, Hy, Hz.
  repeat split; lia.
Qed.

(** C1: every voicing that voiceChord yields keeps bass <= tenor <= alto
    <= soprano, at most an octave between tenor and alto and between alto
    and soprano, and every voice inside its range (soprano C4..G5, alto
    G3..C5, tenor C3..G4, bass F2..C4). *)
Theorem voicings_wellVoiced (chord : RomanNumeral) (voicings : list Chord) (v : Chord) :
  voiceChord chord = Ok voicings -> In v voicings -> wellVoiced v.
Proof.
  unfold voiceChord.
  destruct (containsSeventh chord).
  - apply _voiceChord_wellVoiced.
  - destruct (inversion chord =? 2).
    + destruct (pitchNames chord) as [| first rest]; [discriminate |].
      apply _voiceChord_wellVoiced.
    + intros Heq Hin.
      bind_inv Heq. bind_inv Heq. bind_inv Heq. bind_inv Heq.
      injection Heq as <-. rewrite !in_app_iff in Hin.
      destruct Hin as [Hin | [Hin | [Hin | Hin]]];
        try (eapply _voiceChord_wellVoiced; [| exact Hin]; eassumption).
      destruct (String.eqb (romanNumeral chord) "I" && (inversion chord =? 0)).
      * eapply _voiceChord_wellVoiced; [| exact Hin]; eassumption.
      * injection Hx2 as <-. destruct Hin.
Qed.

Lemma voicings_wellVoiced_witness :
  In [mkPitch (flat B) 2; pitch D 4; pitch F 4; mkPitch (flat B) 4] (voicingsOf tonicBflat)
  /\ wellVoiced [mkPitch (flat B) 2; pitch D 4; pitch F 4; mkPitch (flat B) 4].
Proof.
  assert (In [mkPitch (flat B) 2; pitch D 4; pitch F 4; mkPitch (flat B) 4]
             (voicingsOf tonicBflat)) as Hin
    by (vm_compute; left; reflexivity).
  split; [exact Hin |].
  apply (voicings_wellVoiced tonicBflat (voicingsOf tonicBflat)).
  - vm_compute. reflexivity.
  - exact Hin.
Defined.

(** ** The cost of a transition *)

Lemma motion_additive (chord1 chord2 : Chord) (score : Z) (ij : nat * nat) :
  motion chord1 chord2 score ij = (d <- motion chord1 chord2 0 ij ;; Ok (score + d)).
Proof.
  unfold motion. destruct ij as [i j].
  destruct (getitem chord1 j) as [t1 | e]; simpl; [| reflexivity].
  destruct (getitem chord2 j) as [t2 | e]; simpl; [| reflexivity].
  destruct (getitem chord1 i) as [b1 | e]; simpl; [| reflexivity].
  destruct (getitem chord2 i) as [b2 | e]; simpl; [| reflexivity].
  repeat match goal with |- context [if ?b then _ else _] => destruct b end;
    f_equal; lia.
Qed.

Lemma foldR_motion_additive (chord1 chord2 : Chord) (l : list (nat * nat)) (score : Z) :
  foldR (motion chord1 chord2) l score
  = (m <- foldR (motion chord1 chord2) l 0 ;; Ok (score + m)).
Proof.
  revert score. induction l as [| ij l IH]; intros score; simpl.
  - f_equal. lia.
  - rewrite motion_additive.
    destruct (motion chord1 chord2 0 ij) as [d | e]; simpl; [| reflexivity].
    rewrite IH. rewrite (IH d).
    destruct (foldR (motion chord1 chord2) l 0) as [m | e]; simpl; [| reflexivity].
    f_equal. lia.
Qed.

Section CostProperties.

Variable Chord_root : Chord -> Pitch.
Variable Chord_third : Chord -> option Pitch.
Variable Chord_seventh : Chord -> option Pitch.

Local Abbreviation seventhRule' := (seventhRule Chord_seventh).
Local Abbreviation leadingToneRule' := (leadingToneRule Chord_root Chord_third).
Local Abbreviation cost' := (cost Chord_root Chord_third Chord_seventh).

Lemma seventhRule_additive (chord1 chord2 : Chord) (score : Z) :
  seventhRule' chord1 chord2 score
  = (p <- seventhRule' chord1 chord2 0 ;; Ok (score + p)).
Proof.
  unfold seventhRule. destruct (Chord_seventh chord1) as [seventh |]; simpl.
  - destruct (index chord1 seventh) as [voice | e]; simpl; [| reflexivity].
    destruct (getitem chord2 voice) as [q | e]; simpl; [| reflexivity].
    destruct ((midi q - midi seventh <? -2) || (0 <? midi q - midi seventh)); f_equal; lia.
  - f_equal. lia.
Qed.

Lemma leadingToneRule_additive (key : Key) (chord1 chord2 : Chord) (score : Z) :
  leadingToneRule' key chord1 chord2 score
  = (p <- leadingToneRule' key chord1 chord2 0 ;; Ok (score + p)).
Proof.
  unfold leadingToneRule.
  destruct (Name_eqb (name (Chord_root chord1)) (getDominant key)
            && Name_eqb (name (Chord_root chord2)) (getTonic key)); simpl.
  - destruct (Chord_third chord1) as [third |]; simpl; [| reflexivity].
    destruct (index chord1 third) as [voice | e]; simpl; [| reflexivity].
    destruct (getitem chord2 voice) as [q | e]; simpl; [| reflexivity].
    match goal with |- context [if ?b then _ else _] => destruct b end; f_equal; lia.
  - f_equal. lia.
Qed.

(** [cost] is the sum of the penalties of its five rules. *)
Lemma cost_sum (key : Key) (chord1 chord2 : Chord) :
  cost' key chord1 chord2
  = (o <- overlapPenalty chord1 chord2 ;;
     l <- leapPenalty chord1 chord2 ;;
     m <- motionPenalty chord1 chord2 ;;
     s <- seventhRule' chord1 chord2 0 ;;
     t <- leadingToneRule' key chord1 chord2 0 ;;
     Ok (o + l + m + s + t)).
Proof.
  unfold cost, overlapPenalty, leapPenalty, motionPenalty.
  destruct (overlapping chord1 chord2) as [crossed | e]; cbn [bind]; [| reflexivity].
  destruct (jump chord1 chord2 0) as [d0 | e]; cbn [bind]; [| reflexivity].
  destruct (jump chord1 chord2 1) as [d1 | e]; cbn [bind]; [| reflexivity].
  destruct (jump chord1 chord2 2) as [d2 | e]; cbn [bind]; [| reflexivity].
  destruct (jump chord1 chord2 3) as [d3 | e]; cbn [bind]; [| reflexivity].
  rewrite foldR_motion_additive.
  destruct (foldR (motion chord1 chord2) pairs 0) as [m | e]; cbn [bind]; [| reflexivity].
  rewrite seventhRule_additive.
  destruct (seventhRule' chord1 chord2 0) as [s | e]; cbn [bind]; [| reflexivity].
  rewrite leadingToneRule_additive.
  destruct (leadingToneRule' key chord1 chord2 0) as [t | e]; cbn [bind]; [| reflexivity].
  f_equal. destruct crossed; lia.
Qed.

Lemma overlapPenalty_four (bA tA aA sA bB tB aB sB : Pitch) :
  overlapPenalty [bA; tA; aA; sA] [bB; tB; aB; sB]
  = Ok (if voicesOverlap bA tA aA sA bB tB aB sB then 50 else 0).
Proof.
  unfold overlapPenalty, overlapping, voicesOverlap, orR, gtR, ltR. cbn.
  destruct (Pitch_gtb bB tA); [reflexivity |]. cbn.
  destruct (Pitch_ltb tB bA); [reflexivity |]. cbn.
  destruct (Pitch_gtb tB aA); [reflexivity |]. cbn.
  destruct (Pitch_ltb aB tA); [reflexivity |]. cbn.
  destruct (Pitch_gtb aB sA); [reflexivity |]. cbn.
  destruct (Pitch_ltb sB aA); reflexivity.
Qed.

Lemma leapPenalty_four (bA tA aA sA bB tB aB sB : Pitch) :
  leapPenalty [bA; tA; aA; sA] [bB; tB; aB; sB]
  = Ok ((Z.abs (midi bA - midi bB) / 2) ^ 2
        + (midi tA - midi tB) ^ 2
        + (midi aA - midi aB) ^ 2
        + (midi sA - midi sB) ^ 2 / 10).
Proof.
  unfold leapPenalty, jump. cbn [getitem nth_error bind].
  rewrite !Z.pow_2_r, !Z.abs_square. reflexivity.
Qed.

(** C4, as the code has it: for an earlier chord A and a later chord B,
    cost is the sum of its penalties, and the overlap penalty among them
    is 50 exactly when bass(B) > tenor(A) or tenor(B) < bass(A) or
    tenor(B) > alto(A) or alto(B) < tenor(A) or alto(B) > soprano(A) or
    soprano(B) < alto(A), and 0 otherwise. *)
Theorem cost_overlap_penalty (key : Key) (bA tA aA sA bB tB aB sB : Pitch) :
  let chordA := [bA; tA; aA; sA] in
  let chordB := [bB; tB; aB; sB] in
  cost' key chordA chordB
  = (l <- leapPenalty chordA chordB ;;
     m <- motionPenalty chordA chordB ;;
     s <- seventhRule' chordA chordB 0 ;;
     t <- leadingToneRule' key chordA chordB 0 ;;
     Ok ((if Pitch_gtb bB tA
             || Pitch_ltb tB bA || Pitch_gtb tB aA
             || Pitch_ltb aB tA || Pitch_gtb aB sA
             || Pitch_ltb sB aA
          then 50 else 0) + l + m + s + t)).
Proof.
  intros chordA chordB. subst chordA chordB.
  rewrite cost_sum, overlapPenalty_four. cbn [bind]. reflexivity.
Qed.

(** C9: the leap penalty that cost adds is (|d bass| // 2)^2 + (d tenor)^2
    + (d alto)^2 + (d soprano)^2 // 10, each d the difference of the MIDI
    numbers of a voice in the two chords. *)
Theorem cost_leap_penalty (key : Key) (bA tA aA sA bB tB aB sB : Pitch) :
  let chordA := [bA; tA; aA; sA] in
  let chordB := [bB; tB; aB; sB] in
  cost' key chordA chordB
  = (o <- overlapPenalty chordA chordB ;;
     m <- motionPenalty chordA chordB ;;
     s <- seventhRule' chordA chordB 0 ;;
     t <- leadingToneRule' key chordA chordB 0 ;;
     Ok (o + ((Z.abs (midi bA - midi bB) / 2) ^ 2
              + (midi tA - midi tB) ^ 2
              + (midi aA - midi aB) ^ 2
              + (midi sA - midi sB) ^ 2 / 10) + m + s + t)).
Proof.
  intros chordA chordB. subst chordA chordB.
  rewrite cost_sum, leapPenalty_four, overlapPenalty_four. cbn [bind]. reflexivity.
Qed.

Lemma Step_eqb_eq (s t : Step) : Step_eqb s t = true <-> s = t.
Proof. destruct s, t; simpl; split; congruence. Qed.

Lemma Name_eqb_eq (n m : Name) : Name_eqb n m = true <-> n = m.
Proof.
  destruct n as [s a], m as [t b]. unfold Name_eqb. cbn [step alter].
  rewrite andb_true_iff, Step_eqb_eq, Z.eqb_eq. split.
  - intros [-> ->]. reflexivity.
  - intros H. injection H as -> ->. auto.
Qed.

Lemma Pitch_eqb_eq (p q : Pitch) : Pitch_eqb p q = true <-> p = q.
Proof.
  destruct p as [n o], q as [m k]. unfold Pitch_eqb. cbn [name octave].
  rewrite andb_true_iff, Name_eqb_eq, Z.eqb_eq. split.
  - intros [-> ->]. reflexivity.
  - intros H. injection H as -> ->. auto.
Qed.

(** [index] finds the first position that holds the pitch. *)
Lemma index_first (c : Chord) (p : Pitch) (voice : nat) :
  index c p = Ok voice ->
  nth_error c voice = Some p
  /\ forall i, (i < voice)%nat -> nth_error c i <> Some p.
Proof.
  revert voice. induction c as [| q rest IH]; intros voice; simpl; [discriminate |].
  destruct (Pitch_eqb q p) eqn:Heq.
  - intros H. injection H as <-. apply Pitch_eqb_eq in Heq. subst q.
    split; [reflexivity |]. intros i Hi. lia.
  - intros H. bind_inv H. injection H as <-.
    destruct (IH x Hx) as [Hnth Hbefore]. split; [exact Hnth |].
    intros [| i] Hi; simpl.
    + intros Hq. injection Hq as ->.
      assert (Pitch_eqb p p = true) by (apply Pitch_eqb_eq; reflexivity). congruence.
    + apply Hbefore. lia.
Qed.

Lemma leadingToneRule_resolution (key : Key) (chordA chordB : Chord)
    (third q : Pitch) (voice : nat) (score : Z) :
  name (Chord_root chordA) = getDominant key ->
  name (Chord_root chordB) = getTonic key ->
  Chord_third chordA = Some third ->
  index chordA third = Ok voice ->
  getitem chordB voice = Ok q ->
  leadingToneRule' key chordA chordB score
  = Ok (score + leadingTonePenalty voice (midi q - midi third)).
Proof.
  intros HA HB Hthird Hindex Hq. unfold leadingToneRule, leadingTonePenalty.
  rewrite HA, HB, Hthird, Hindex.
  rewrite (proj2 (Name_eqb_eq _ _) eq_refl), (proj2 (Name_eqb_eq _ _) eq_refl).
  cbn [andb bind]. rewrite Hq. cbn [bind].
  destruct (midi q - midi third =? 1); destruct (midi q - midi third =? -4);
    destruct (voice =? 3)%nat; cbn; f_equal; lia.
Qed.

(** C5, as the code has it: when the root of chord A is the key's
    dominant and the root of chord B the key's tonic, cost adds 80 unless
    the voice of A that carries A's third moves up by exactly 1 semitone,
    or moves down by exactly 4 semitones and is not the soprano (the voice
    at position 3, the highest). *)
Theorem cost_leading_tone_penalty (key : Key) (chordA chordB : Chord)
    (third q : Pitch) (voice : nat) :
  name (Chord_root chordA) = getDominant key ->
  name (Chord_root chordB) = getTonic key ->
  Chord_third chordA = Some third ->
  index chordA third = Ok voice ->
  getitem chordB voice = Ok q ->
  cost' key chordA chordB
  = (o <- overlapPenalty chordA chordB ;;
     l <- leapPenalty chordA chordB ;;
     m <- motionPenalty chordA chordB ;;
     s <- seventhRule' chordA chordB 0 ;;
     Ok (o + l + m + s
         + (if (midi q - midi third =? 1)
               || ((midi q - midi third =? -4) && negb (voice =? 3)%nat)
            then 0 else 80))).
Proof.
  intros HA HB Hthird Hindex Hq. rewrite cost_sum.
  rewrite (leadingToneRule_resolution key chordA chordB third q voice 0 HA HB Hthird Hindex Hq).
  reflexivity.
Qed.

(** C10: the voice that the leading-tone rule checks is the first
    position of chord A that holds A's third.  That voice is constrained:
    80 is added to the cost unless it moves up by 1 semitone, or down by
    4 and is not the soprano.  No other voice is: whatever chord B' has
    the same pitch in that voice (and the tonic as its root), the rule
    adds the same, so a voice that doubles the leading tone moves freely. *)
Theorem leading_tone_checks_first_voice (key : Key) (chordA chordB : Chord)
    (third q : Pitch) (voice : nat) :
  name (Chord_root chordA) = getDominant key ->
  name (Chord_root chordB) = getTonic key ->
  Chord_third chordA = Some third ->
  index chordA third = Ok voice ->
  getitem chordB voice = Ok q ->
  (nth_error chordA voice = Some third
   /\ forall i, (i < voice)%nat -> nth_error chordA i <> Some third)
  /\ cost' key chordA chordB
     = (o <- overlapPenalty chordA chordB ;;
        l <- leapPenalty chordA chordB ;;
        m <- motionPenalty chordA chordB ;;
        s <- seventhRule' chordA chordB 0 ;;
        Ok (o + l + m + s + leadingTonePenalty voice (midi q - midi third)))
  /\ forall (chordB' : Chord) (score : Z),
       name (Chord_root chordB') = getTonic key ->
       getitem chordB' voice = Ok q ->
       leadingToneRule' key chordA chordB' score
       = Ok (score + leadingTonePenalty voice (midi q - midi third)).
Proof.
  intros HA HB Hthird Hindex Hq.
  split; [apply index_first; exact Hindex |]. split.
  - rewrite cost_sum.
    rewrite (leadingToneRule_resolution key chordA chordB third q voice 0
               HA HB Hthird Hindex Hq).
    reflexivity.
  - intros chordB' score HB' Hq'.
    exact (leadingToneRule_resolution key chordA chordB' third q voice score
             HA HB' Hthird Hindex Hq').
Qed.

Lemma index_member (c : Chord) (p : Pitch) :
  In p c -> exists i, index c p = Ok i /\ (i < List.length c)%nat.
Proof.
  induction c as [| q rest IH]; intros Hin; [destruct Hin |]. simpl.
  destruct (Pitch_eqb q p) eqn:Heq.
  - exists 0%nat. split; [reflexivity | lia].
  - destruct Hin as [-> | Hin].
    + assert (Pitch_eqb p p = true) by (apply Pitch_eqb_eq; reflexivity). congruence.
    + destruct (IH Hin) as [i [-> Hi]]. exists (S i). split; [reflexivity | lia].
Qed.

Lemma getitem_returns (c : Chord) (i : nat) :
  (i < List.length c)%nat -> exists q, getitem c i = Ok q.
Proof.
  intros Hi. unfold getitem. destruct (nth_error c i) as [q |] eqn:Hq; [eauto |].
  apply nth_error_None in Hq. lia.
Qed.

Lemma foldR_returns {X St : Type} (f : St -> X -> result St) (l : list X) (s : St) :
  (forall s x, In x l -> exists s', f s x = Ok s') -> exists s', foldR f l s = Ok s'.
Proof.
  revert s. induction l as [| x l IH]; intros s Hf; simpl; [eauto |].
  destruct (Hf s x (or_introl eq_refl)) as [s' ->]. cbn [bind].
  apply IH. intros s0 y Hy. apply Hf. right. exact Hy.
Qed.

Lemma motionPenalty_returns (bA tA aA sA bB tB aB sB : Pitch) :
  exists m, motionPenalty [bA; tA; aA; sA] [bB; tB; aB; sB] = Ok m.
Proof.
  unfold motionPenalty. apply foldR_returns. intros score [i j] Hin.
  unfold pairs in Hin. simpl in Hin.
  repeat (destruct Hin as [Hin | Hin]; [injection Hin as <- <- |]); [.. | destruct Hin];
    unfold motion; cbn [getitem nth_error bind]; eexists; reflexivity.
Qed.

(** [cost] returns a number on two four-note chords when the seventh that
    music21 finds in the first chord is one of its pitches and, for a
    dominant followed by the tonic, music21 finds a third in the first
    chord, one of its pitches too. *)
Lemma cost_returns (key : Key) (bA tA aA sA bB tB aB sB : Pitch) :
  let chordA := [bA; tA; aA; sA] in
  let chordB := [bB; tB; aB; sB] in
  (forall p, Chord_seventh chordA = Some p -> In p chordA) ->
  (name (Chord_root chordA) = getDominant key ->
   name (Chord_root chordB) = getTonic key ->
   exists p, Chord_third chordA = Some p /\ In p chordA) ->
  exists z, cost' key chordA chordB = Ok z.
Proof.
  intros chordA chordB Hseventh Hthird. rewrite cost_sum.
  unfold chordA, chordB. rewrite overlapPenalty_four, leapPenalty_four. cbn [bind].
  destruct (motionPenalty_returns bA tA aA sA bB tB aB sB) as [m ->]. cbn [bind].
  assert (exists s, seventhRule' chordA chordB 0 = Ok s) as [s Hs].
  { unfold seventhRule. destruct (Chord_seventh chordA) as [p |] eqn:Hp;
      [| eexists; reflexivity].
    destruct (index_member chordA p (Hseventh p eq_refl)) as [i [-> Hi]]. cbn [bind].
    destruct (getitem_returns chordB i Hi) as [q ->]. cbn [bind]. eexists. reflexivity. }
  assert (exists t, leadingToneRule' key chordA chordB 0 = Ok t) as [t Ht].
  { unfold leadingToneRule.
    destruct (Name_eqb (name (Chord_root chordA)) (getDominant key)) eqn:HA;
      cbn [andb]; [| eexists; reflexivity].
    destruct (Name_eqb (name (Chord_root chordB)) (getTonic key)) eqn:HB;
      [| eexists; reflexivity].
    apply Name_eqb_eq in HA, HB.
    destruct (Hthird HA HB) as [p [-> Hin]].
    destruct (index_member chordA p Hin) as [i [-> Hi]]. cbn [bind].
    destruct (getitem_returns chordB i Hi) as [q ->]. cbn [bind]. eexists. reflexivity. }
  fold chordA chordB. rewrite Hs. cbn [bind]. rewrite Ht. cbn [bind]. eexists. reflexivity.
Qed.

End CostProperties.

(** *** Examples of the cost rules *)

Lemma cost_returns_witness :
  ((forall p, noSeventh dominantVoicing = Some p -> In p dominantVoicing)
   /\ (name (lowestAsRoot dominantVoicing) = getDominant keyBflat ->
       name (lowestAsRoot tonicVoicing) = getTonic keyBflat ->
       exists p, highestAsThird dominantVoicing = Some p /\ In p dominantVoicing))
  /\ exists z, cost lowestAsRoot highestAsThird noSeventh keyBflat
                    dominantVoicing tonicVoicing = Ok z.
Proof.
  assert (forall p, noSeventh dominantVoicing = Some p -> In p dominantVoicing) as Hseventh
    by (intros p Hp; discriminate).
  assert (name (lowestAsRoot dominantVoicing) = getDominant keyBflat ->
          name (lowestAsRoot tonicVoicing) = getTonic keyBflat ->
          exists p, highestAsThird dominantVoicing = Some p /\ In p dominantVoicing) as Hthird
    by (intros _ _; exists (pitch A 4); split; [reflexivity | simpl; tauto]).
  split; [split; assumption |].
  exact (cost_returns lowestAsRoot highestAsThird noSeventh keyBflat
           (pitch F 3) (pitch C 4) (pitch F 4) (pitch A 4)
           (mkPitch (flat B) 2) (pitch D 4) (pitch F 4) (mkPitch (flat B) 4)
           Hseventh Hthird).
Defined.

Lemma cost_leading_tone_penalty_witness :
  (name (lowestAsRoot dominantVoicing) = getDominant keyBflat
   /\ name (lowestAsRoot tonicVoicing) = getTonic keyBflat
   /\ highestAsThird dominantVoicing = Some (pitch A 4)
   /\ index dominantVoicing (pitch A 4) = Ok 3%nat
   /\ getitem tonicVoicing 3 = Ok (mkPitch (flat B) 4))
  /\ cost lowestAsRoot highestAsThird noSeventh keyBflat dominantVoicing tonicVoicing
     = Ok (0 + 13 + 1 + 0 + 0).
Proof.
  split; [repeat split |].
  exact (cost_leading_tone_penalty lowestAsRoot highestAsThird noSeventh keyBflat
           dominantVoicing tonicVoicing (pitch A 4) (mkPitch (flat B) 4) 3
           eq_refl eq_refl eq_refl eq_refl eq_refl).
Defined.

(** F2 A3 C4 A4, the dominant with the leading tone in the tenor and in
    the soprano, followed by the tonic B-flat2 D4 F4 B-flat4: the voice
    checked is the tenor, which leaps up a fourth, and 80 is added,
    although the soprano resolves to the tonic. *)
Lemma leading_tone_checks_first_voice_witness :
  (nth_error doubledThirdVoicing 1 = Some (pitch A 3)
   /\ forall i, (i < 1)%nat -> nth_error doubledThirdVoicing i <> Some (pitch A 3))
  /\ cost lowestAsRoot secondAsThird noSeventh keyBflat doubledThirdVoicing tonicVoicing
     = (o <- overlapPenalty doubledThirdVoicing tonicVoicing ;;
        l <- leapPenalty doubledThirdVoicing tonicVoicing ;;
        m <- motionPenalty doubledThirdVoicing tonicVoicing ;;
        s <- seventhRule noSeventh doubledThirdVoicing tonicVoicing 0 ;;
        Ok (o + l + m + s + leadingTonePenalty 1 (midi (pitch D 4) - midi (pitch A 3))))
  /\ forall (chordB' : Chord) (score : Z),
       name (lowestAsRoot chordB') = getTonic keyBflat ->
       getitem chordB' 1 = Ok (pitch D 4) ->
       leadingToneRule lowestAsRoot secondAsThird keyBflat doubledThirdVoicing chordB' score
       = Ok (score + leadingTonePenalty 1 (midi (pitch D 4) - midi (pitch A 3))).
Proof.
  exact (leading_tone_checks_first_voice lowestAsRoot secondAsThird noSeventh keyBflat
           doubledThirdVoicing tonicVoicing (pitch A 3) (pitch D 4) 1
           eq_refl eq_refl eq_refl eq_refl eq_refl).
Defined.

(** The rule at work on the doubled leading tone: 80 for the tenor that
    leaps while the soprano resolves; nothing for the tenor that
    resolves, although the soprano falls by 4 semitones, which the rule
    does not allow to the voice it checks when that is the soprano. *)
Example leading_tone_tenor_leaps :
  leadingTonePenalty 1 (midi (pitch D 4) - midi (pitch A 3)) = 80
  /\ leadingToneRule lowestAsRoot secondAsThird keyBflat doubledThirdVoicing tonicVoicing 0
     = Ok 80.
Proof. split; reflexivity. Qed.

Example leading_tone_tenor_resolves :
  nth_error doubledThirdVoicing 3 = Some (pitch A 4)
  /\ nth_error tonicLowVoicing 3 = Some (pitch F 4)
  /\ leadingTonePenalty 3 (midi (pitch F 4) - midi (pitch A 4)) = 80
  /\ leadingToneRule lowestAsRoot secondAsThird keyBflat doubledThirdVoicing tonicLowVoicing 0
     = Ok 0.
Proof. repeat split; reflexivity. Qed.

(** C4, as the specification words it, fails on a chord repeated: the
    soprano of the later chord lies above the alto of the earlier one, so
    the specified test holds, yet no overlap penalty is added and the
    cost is that of the seventh and leading-tone rules alone. *)
Lemma specified_overlap_counterexample :
  specifiedOverlap (pitch C 3) (pitch E 3) (pitch A 3) (pitch D 4)
                   (pitch C 3) (pitch E 3) (pitch A 3) (pitch D 4) = true
  /\ overlapPenalty quartalVoicing quartalVoicing = Ok 0
  /\ (forall Chord_root Chord_third Chord_seventh key,
        cost Chord_root Chord_third Chord_seventh key quartalVoicing quartalVoicing
        = (s <- seventhRule Chord_seventh quartalVoicing quartalVoicing 0 ;;
           t <- leadingToneRule Chord_root Chord_third key quartalVoicing quartalVoicing 0 ;;
           Ok (s + t))).
Proof.
  split; [reflexivity |]. split; [reflexivity |].
  intros Chord_root Chord_third Chord_seventh key. rewrite cost_sum.
  change (overlapPenalty quartalVoicing quartalVoicing) with (@Ok Z 0).
  change (leapPenalty quartalVoicing quartalVoicing) with (@Ok Z 0).
  change (motionPenalty quartalVoicing quartalVoicing) with (@Ok Z 0).
  cbn [bind]. reflexivity.
Qed.

(** C5, as the specification words it, fails when the bass carries the
    leading tone and falls by four semitones (A2 to F2): the specified
    rule charges 80, the code nothing. *)
Lemma specified_leading_tone_counterexample :
  specifiedLeadingTonePenalty 0 (midi (pitch F 2) - midi (pitch A 2)) = 80
  /\ index dominantSixVoicing (pitch A 2) = Ok 0%nat
  /\ (forall Chord_root Chord_third key,
        name (Chord_root dominantSixVoicing) = getDominant key ->
        name (Chord_root tonicSixFourVoicing) = getTonic key ->
        Chord_third dominantSixVoicing = Some (pitch A 2) ->
        leadingToneRule Chord_root Chord_third key dominantSixVoicing tonicSixFourVoicing 0
        = Ok 0).
Proof.
  split; [reflexivity |]. split; [reflexivity |].
  intros Chord_root Chord_third key HA HB Hthird.
  rewrite (leadingToneRule_resolution Chord_root Chord_third key
             dominantSixVoicing tonicSixFourVoicing (pitch A 2) (pitch F 2) 0 0
             HA HB Hthird eq_refl eq_refl).
  reflexivity.
Qed.

(** A chord repeated: no voice leaps and no pair of voices moves in the
    same direction, but every pair a fifth or an octave apart is charged
    as a parallel. *)
Lemma motion_static (b t a s : Pitch) (score : Z) (i j : nat) :
  In (i, j) pairs ->
  exists lower upper,
    nth_error [b; t; a; s] i = Some lower
    /\ nth_error [b; t; a; s] j = Some upper
    /\ motion [b; t; a; s] [b; t; a; s] score (i, j)
       = Ok (score
             + (if (midi upper - midi lower) mod 12 =? 7 then 60 else 0)
             + (if (midi upper - midi lower) mod 12 =? 0 then 100 else 0)).
Proof.
  intros Hin. unfold pairs in Hin. simpl in Hin.
  repeat (destruct Hin as [Hin | Hin]; [injection Hin as <- <- |]); [.. | destruct Hin];
    do 2 eexists; (split; [reflexivity |]); (split; [reflexivity |]);
    unfold motion; cbn [getitem nth_error bind];
    unfold Pitch_gtb, Pitch_ltb; rewrite !Z.ltb_irrefl, Z.eqb_refl; cbn [andb orb];
    match goal with
    | |- context [ ?x mod 12 =? 7 ] =>
        destruct (x mod 12 =? 7); destruct (x mod 12 =? 0); f_equal; lia
    end.
Qed.

Lemma motion_static_witness :
  In (0%nat, 1%nat) pairs
  /\ exists lower upper,
       nth_error tonicCVoicing 0 = Some lower
       /\ nth_error tonicCVoicing 1 = Some upper
       /\ motion tonicCVoicing tonicCVoicing 0 (0%nat, 1%nat)
          = Ok (0
                + (if (midi upper - midi lower) mod 12 =? 7 then 60 else 0)
                + (if (midi upper - midi lower) mod 12 =? 0 then 100 else 0)).
Proof.
  assert (In (0%nat, 1%nat) pairs) as Hin by (left; reflexivity).
  split; [exact Hin |].
  exact (motion_static (pitch C 3) (pitch G 3) (pitch E 4) (pitch C 5) 0 0 1 Hin).
Defined.

Lemma leapPenalty_static (b t a s : Pitch) :
  leapPenalty [b; t; a; s] [b; t; a; s] = Ok 0.
Proof.
  rewrite leapPenalty_four. rewrite !Z.sub_diag. reflexivity.
Qed.

(** C6 on the code: the voicing C3 G3 E4 C5 of the C major triad, one
    that voiceChord yields, repeated.  The leap terms are 0, but the bass
    and the tenor, a fifth apart, cost 60 and the bass and the soprano,
    two octaves apart, cost 100. *)
Theorem static_chord_charged_as_parallel :
  In tonicCVoicing (voicingsOf tonicC)
  /\ leapPenalty tonicCVoicing tonicCVoicing = Ok 0
  /\ motionPenalty tonicCVoicing tonicCVoicing = Ok (60 + 100)
  /\ (forall Chord_root Chord_third Chord_seventh key,
        cost Chord_root Chord_third Chord_seventh key tonicCVoicing tonicCVoicing
        = (s <- seventhRule Chord_seventh tonicCVoicing tonicCVoicing 0 ;;
           t <- leadingToneRule Chord_root Chord_third key tonicCVoicing tonicCVoicing 0 ;;
           Ok (160 + s + t))).
Proof.
  split.
  { apply (nth_error_In _ 6). vm_compute. reflexivity. }
  split; [reflexivity |]. split; [reflexivity |].
  intros Chord_root Chord_third Chord_seventh key. rewrite cost_sum.
  change (overlapPenalty tonicCVoicing tonicCVoicing) with (@Ok Z 0).
  change (leapPenalty tonicCVoicing tonicCVoicing) with (@Ok Z 0).
  change (motionPenalty tonicCVoicing tonicCVoicing) with (@Ok Z 160).
  cbn [bind]. reflexivity.
Qed.

(** ** The doublings of voiceChord *)

(** C7: voiceChord yields the voicings of its doubling alternatives one
    after the other, and the alternatives are: the chord as it is when it
    has a seventh; for a triad in second inversion the single alternative
    that doubles the fifth, the bass; for a triad in another inversion
    the three alternatives that double the root, the third and the fifth,
    and for the tonic triad in root position a fourth with the root three
    times, the third once and no fifth. *)
Theorem voiceChord_doublings (chord : RomanNumeral) :
  triadWellFormed chord ->
  exists alternatives,
    voiceChord chord = (chords <- mapR _voiceChord alternatives ;; Ok (List.concat chords))
    /\ Forall2 (@Permutation Name) alternatives (doublings chord).
Proof.
  unfold triadWellFormed, voiceChord, doublings. intros Hwf.
  destruct (containsSeventh chord).
  - exists [pitchNames chord]. split.
    + cbn [mapR]. destruct (_voiceChord (pitchNames chord)); cbn; [rewrite app_nil_r |]; reflexivity.
    + constructor; [apply Permutation_refl | constructor].
  - destruct (Hwf eq_refl) as [Hperm Hbass].
    assert (forall x, Permutation (pitchNames chord ++ [x])
                        (x :: [rootName chord; thirdName chord; fifthName chord])) as Happ.
    { intros x. apply Permutation_sym.
      eapply Permutation_trans; [apply Permutation_cons_append |].
      apply Permutation_app_tail, Permutation_sym, Hperm. }
    destruct (Z.eqb_spec (inversion chord) 2) as [Hinv | Hinv].
    + specialize (Hbass Hinv).
      destruct (pitchNames chord) as [| first rest] eqn:Hnames; [discriminate |].
      injection Hbass as ->.
      exists [(fifthName chord :: rest) ++ [fifthName chord]]. split.
      * cbn [mapR].
        destruct (_voiceChord ((fifthName chord :: rest) ++ [fifthName chord]));
          cbn; [rewrite app_nil_r |]; reflexivity.
      * constructor; [| constructor].
        eapply Permutation_trans; [apply Happ |]. apply Permutation_cons_append.
    + assert (Forall2 (@Permutation Name)
                [pitchNames chord ++ [rootName chord];
                 pitchNames chord ++ [thirdName chord];
                 pitchNames chord ++ [fifthName chord]]
                [[rootName chord; rootName chord; thirdName chord; fifthName chord];
                 [rootName chord; thirdName chord; thirdName chord; fifthName chord];
                 [rootName chord; thirdName chord; fifthName chord; fifthName chord]]) as Hthree.
      { repeat constructor.
        - apply Happ.
        - eapply Permutation_trans; [apply Happ |]. apply perm_swap.
        - eapply Permutation_trans; [apply Happ |]. apply Permutation_cons_append. }
      destruct (String.eqb (romanNumeral chord) "I" && (inversion chord =? 0)).
      * exists [pitchNames chord ++ [rootName chord];
                pitchNames chord ++ [thirdName chord];
                pitchNames chord ++ [fifthName chord];
                repeat (rootName chord) 3 ++ [thirdName chord]]. split.
        -- cbn [mapR].
           destruct (_voiceChord (pitchNames chord ++ [rootName chord])); cbn [bind]; [| reflexivity].
           destruct (_voiceChord (pitchNames chord ++ [thirdName chord])); cbn [bind]; [| reflexivity].
           destruct (_voiceChord (pitchNames chord ++ [fifthName chord])); cbn [bind]; [| reflexivity].
           destruct (_voiceChord (repeat (rootName chord) 3 ++ [thirdName chord]));
             cbn [bind List.concat]; [rewrite app_nil_r |]; reflexivity.
        -- apply Forall2_app with (l1 := [_; _; _]) (l1' := [_; _; _]); [exact Hthree |].
           repeat constructor.
      * exists [pitchNames chord ++ [rootName chord];
                pitchNames chord ++ [thirdName chord];
                pitchNames chord ++ [fifthName chord]]. split.
        -- cbn [mapR].
           destruct (_voiceChord (pitchNames chord ++ [rootName chord])); cbn [bind]; [| reflexivity].
           destruct (_voiceChord (pitchNames chord ++ [thirdName chord])); cbn [bind]; [| reflexivity].
           destruct (_voiceChord (pitchNames chord ++ [fifthName chord]));
             cbn [bind List.concat]; reflexivity.
        -- rewrite app_nil_r. exact Hthree.
Qed.

Lemma voiceChord_doublings_witness :
  triadWellFormed tonicSixFourBflat
  /\ exists alternatives,
       voiceChord tonicSixFourBflat
       = (chords <- mapR _voiceChord alternatives ;; Ok (List.concat chords))
       /\ Forall2 (@Permutation Name) alternatives
                  [[flat B; natural D; natural F; natural F]].
Proof.
  assert (triadWellFormed tonicSixFourBflat) as Hwf.
  { intros _. split; [| reflexivity]. cbn.
    exact (Permutation_cons_append [flat B; natural D] (natural F)). }
  split; [exact Hwf |]. exact (voiceChord_doublings tonicSixFourBflat Hwf).
Defined.

(** ** The pitches of voiceNote *)

Lemma StronglySorted_map {X Y : Type} (R : X -> X -> Prop) (R' : Y -> Y -> Prop)
    (g : X -> Y) (l : list X) :
  (forall x y, R x y -> R' (g x) (g y)) ->
  StronglySorted R l -> StronglySorted R' (map g l).
Proof.
  intros Hg Hl. induction Hl as [| x l Hl IH Hx]; simpl; constructor.
  - exact IH.
  - apply Forall_map. eapply Forall_impl; [| exact Hx]. intros y. apply Hg.
Qed.

Lemma StronglySorted_filter {X : Type} (R : X -> X -> Prop) (f : X -> bool) (l : list X) :
  StronglySorted R l -> StronglySorted R (filter f l).
Proof.
  intros Hl. induction Hl as [| x l Hl IH Hx]; simpl; [constructor |].
  destruct (f x); [| exact IH]. constructor; [exact IH |].
  apply Forall_forall. intros y Hy. apply filter_In in Hy.
  rewrite Forall_forall in Hx. apply Hx. tauto.
Qed.

Lemma seq_sorted (len start : nat) : StronglySorted lt (seq start len).
Proof.
  revert start. induction len as [| len IH]; intros start; simpl; constructor.
  - apply IH.
  - apply Forall_forall. intros k Hk. apply in_seq in Hk. lia.
Qed.

(** In a range that starts in octave 0 or above, voiceNote yields its
    pitches from low to high. *)
Lemma voiceNote_ascending (noteName : Name) (r : PitchRange) :
  0 <= octave (fst r) ->
  StronglySorted (fun p q => ps p < ps q) (voiceNote noteName r).
Proof.
  intros _. unfold voiceNote, range. apply StronglySorted_filter. rewrite map_map.
  apply StronglySorted_map with (R := lt); [| apply seq_sorted].
  intros x y Hxy. unfold ps. cbn [name octave]. lia.
Qed.

Lemma voiceNote_ascending_witness :
  0 <= octave (fst BASS_RANGE)
  /\ StronglySorted (fun p q => ps p < ps q) (voiceNote (flat B) BASS_RANGE).
Proof.
  assert (0 <= octave (fst BASS_RANGE)) as H by (cbn; lia).
  split; [exact H | exact (voiceNote_ascending (flat B) BASS_RANGE H)].
Defined.

Example voiceNote_C_soprano :
  voiceNote (natural C) SOPRANO_RANGE = [pitch C 4; pitch C 5].
Proof. reflexivity. Qed.

Example voiceNote_B_flat_bass :
  voiceNote (flat B) BASS_RANGE = [mkPitch (flat B) 2; mkPitch (flat B) 3].
Proof. reflexivity. Qed.

(** C8 on the code: the soprano of a chord with B sharp (the dominant of
    C sharp major).  B#3 has the name asked for and the height of C4, the
    lower bound of the soprano range, but it is written in octave 3 and
    the octaves tried are those of the bounds, 4 and 5: only B#4 is
    yielded. *)
Theorem voiceNote_misses_B_sharp :
  voiceNote (sharp B) SOPRANO_RANGE = [mkPitch (sharp B) 4]
  /\ name (mkPitch (sharp B) 3) = sharp B
  /\ inRange (mkPitch (sharp B) 3) SOPRANO_RANGE
  /\ ~ In (mkPitch (sharp B) 3) (voiceNote (sharp B) SOPRANO_RANGE).
Proof.
  split; [reflexivity |]. split; [reflexivity |]. split.
  - unfold inRange. cbn. lia.
  - intros H. apply In_voiceNote in H. cbn in H. lia.
Qed.

(** ** The dynamic program *)

Lemma number_ltb_keep (a c m : number) :
  number_ltb a m = false -> number_ltb c m = true -> number_ltb a c = false.
Proof.
  destruct a as [x |], c as [y |], m as [z |]; simpl; try congruence.
  rewrite !Z.ltb_lt, !Z.ltb_ge. lia.
Qed.

Lemma number_ltb_irrefl (a : number) : number_ltb a a = false.
Proof. destruct a; simpl; [apply Z.ltb_irrefl | reflexivity]. Qed.

Lemma Forall2_nth_error_r {X Y : Type} (R : X -> Y -> Prop) (l : list X) (l' : list Y)
    (j : nat) (y : Y) :
  Forall2 R l l' -> nth_error l' j = Some y ->
  exists x, nth_error l j = Some x /\ R x y.
Proof.
  intros H. revert j. induction H as [| x0 y0 l l' Hxy H IH]; intros j Hj.
  - destruct j; discriminate.
  - destruct j as [| j]; simpl in *.
    + injection Hj as <-. eauto.
    + apply IH. exact Hj.
Qed.

Lemma Forall2_In_l {X Y : Type} (R : X -> Y -> Prop) (l : list X) (l' : list Y) (x : X) :
  Forall2 R l l' -> In x l -> exists y, In y l' /\ R x y.
Proof.
  intros H. induction H as [| x0 y0 l l' Hxy H IH]; intros Hin; [destruct Hin |].
  destruct Hin as [-> | Hin].
  - exists y0. split; [left; reflexivity | exact Hxy].
  - destruct (IH Hin) as [y [Hy Hr]]. exists y. split; [right; exact Hy | exact Hr].
Qed.

Lemma Forall2_In_r {X Y : Type} (R : X -> Y -> Prop) (l : list X) (l' : list Y) (y : Y) :
  Forall2 R l l' -> In y l' -> exists x, In x l /\ R x y.
Proof.
  intros H. induction H as [| x0 y0 l l' Hxy H IH]; intros Hin; [destruct Hin |].
  destruct Hin as [-> | Hin].
  - exists x0. split; [left; reflexivity | exact Hxy].
  - destruct (IH Hin) as [x [Hx Hr]]. exists x. split; [right; exact Hx | exact Hr].
Qed.

Lemma fold_left_min (l : list Z) (x : Z) :
  fold_left Z.min l x <= x
  /\ (forall z, In z l -> fold_left Z.min l x <= z)
  /\ (fold_left Z.min l x = x \/ In (fold_left Z.min l x) l).
Proof.
  revert x. induction l as [| y l IH]; intros x; simpl.
  - split; [lia |]. split; [intros z [] | left; reflexivity].
  - destruct (IH (Z.min x y)) as [Hle [Hall Hin]]. split; [lia |]. split.
    + intros z [<- | Hz]; [lia | apply Hall; exact Hz].
    + destruct Hin as [Heq | Hin]; [| right; right; exact Hin].
      rewrite Heq. destruct (Z.min_spec x y) as [[_ ->] | [_ ->]]; [left | right; left]; reflexivity.
Qed.

(** The minimum of a list is its member that no member undercuts. *)
Lemma minimum_least (l : list Z) (m : Z) :
  In m l -> (forall z, In z l -> m <= z) -> minimum l = Some m.
Proof.
  destruct l as [| x l]; intros Hin Hmin; [destruct Hin |]. simpl. f_equal.
  destruct (fold_left_min l x) as [Hle [Hall Hmem]].
  assert (In (fold_left Z.min l x) (x :: l)) as Hfold
    by (destruct Hmem as [-> | Hmem]; [left; reflexivity | right; exact Hmem]).
  specialize (Hmin _ Hfold).
  destruct Hin as [<- | Hin]; [lia |]. specialize (Hall _ Hin). lia.
Qed.

(** [mapR] returns when its function returns on every item, and relates
    item and result one by one. *)
Lemma mapR_Forall2 {X Y : Type} (f : X -> result Y) (l : list X) (l' : list Y) :
  mapR f l = Ok l' -> Forall2 (fun x y => f x = Ok y) l l'.
Proof.
  revert l'. induction l as [| x l IH]; intros l' H; simpl in H.
  - injection H as <-. constructor.
  - bind_inv H. bind_inv H. injection H as <-. constructor; auto.
Qed.

Lemma mapR_total {X Y : Type} (f : X -> result Y) (l : list X) :
  (forall x, In x l -> exists y, f x = Ok y) -> exists l', mapR f l = Ok l'.
Proof.
  induction l as [| x l IH]; intros H; simpl.
  - eauto.
  - destruct (H x (or_introl eq_refl)) as [y ->].
    destruct IH as [l' ->]; [intros z Hz; apply H; right; exact Hz |].
    simpl. eauto.
Qed.

Lemma minEntry_fold (l seen : layer) (acc : option (nat * number)) :
  leastOf seen acc ->
  leastOf (seen ++ l)
    (fold_left minStep (combine (seq (List.length seen) (List.length l)) l) acc).
Proof.
  revert seen acc. induction l as [| [v [c p]] l IH]; intros seen acc Hacc.
  - rewrite app_nil_r. exact Hacc.
  - cbn [List.length seq combine fold_left].
    specialize (IH (seen ++ [(v, (c, p))]) (minStep acc (List.length seen, (v, (c, p))))).
    rewrite length_app, <- app_assoc in IH. cbn [List.length app] in IH.
    rewrite Nat.add_1_r in IH. apply IH. clear IH.
    assert (nth_error (seen ++ [(v, (c, p))]) (List.length seen) = Some (v, (c, p))) as Hnew
      by (rewrite nth_error_app2, Nat.sub_diag by lia; reflexivity).
    unfold minStep. destruct acc as [[k m] |]; simpl in Hacc.
    + destruct Hacc as [[v0 [p0 Hk]] Hmin].
      destruct (number_ltb c m) eqn:Hlt; simpl.
      * split; [eauto |]. intros e He. apply in_app_or in He. destruct He as [He | [<- | []]].
        -- eapply number_ltb_keep; [apply Hmin; exact He | exact Hlt].
        -- apply number_ltb_irrefl.
      * split.
        -- exists v0, p0. rewrite nth_error_app1; [exact Hk |].
           apply nth_error_Some. congruence.
        -- intros e He. apply in_app_or in He. destruct He as [He | [<- | []]].
           ++ apply Hmin. exact He.
           ++ exact Hlt.
    + subst seen. simpl. split; [eauto |].
      intros e [<- | []]. apply number_ltb_irrefl.
Qed.

(** [min] over a layer: nothing for an empty layer, else the position and
    the cost of an entry that no entry undercuts. *)
Lemma minEntry_least (l : layer) : leastOf l (minEntry l).
Proof.
  unfold minEntry, enumerate. apply (minEntry_fold l [] None). reflexivity.
Qed.

Section ProgressionProperties.

Variable Chord_root : Chord -> Pitch.
Variable Chord_third : Chord -> option Pitch.
Variable Chord_seventh : Chord -> option Pitch.

Local Abbreviation cost' := (cost Chord_root Chord_third Chord_seventh).
Local Abbreviation bestStep' := (bestStep Chord_root Chord_third Chord_seventh).
Local Abbreviation best' := (best Chord_root Chord_third Chord_seventh).
Local Abbreviation fillLayer' := (fillLayer Chord_root Chord_third Chord_seventh).
Local Abbreviation voiceProgression' :=
  (voiceProgression Chord_root Chord_third Chord_seventh).
Local Abbreviation bestOf := (bestOf Chord_root Chord_third Chord_seventh).
Local Abbreviation optimalEntry := (optimalEntry Chord_root Chord_third Chord_seventh).
Local Abbreviation bruteForceCost' := (bruteForceCost Chord_root Chord_third Chord_seventh).






Lemma best_seed_fold (key : Key) (v : Chord) (V seen : list Chord)
    (acc : number * option nat) :
  (forall u, In u V -> exists z, cost' key u v = Ok z) ->
  bestOf key v seen acc ->
  exists acc',
    foldR (bestStep' key v)
          (combine (seq (List.length seen) (List.length V))
                   (map (fun u => (u, (Int 0, @None nat))) V))
          acc = Ok acc'
    /\ bestOf key v (seen ++ V) acc'.
Proof.
  revert seen acc. induction V as [| u V IH]; intros seen acc Hcost Hacc.
  - exists acc. rewrite app_nil_r. split; [reflexivity | exact Hacc].
  - cbn [List.length seq map combine foldR bestStep].
    destruct (Hcost u (or_introl eq_refl)) as [z Hz]. rewrite Hz. cbn [bind number_add].
    specialize (IH (seen ++ [u])).
    rewrite length_app, <- app_assoc in IH. cbn [List.length app] in IH.
    rewrite Nat.add_1_r in IH. apply IH.
    + intros u' Hu'. apply Hcost. right. exact Hu'.
    + assert (nth_error (seen ++ [u]) (List.length seen) = Some u) as Hnew
        by (rewrite nth_error_app2, Nat.sub_diag by lia; reflexivity).
      right. destruct Hacc as [[-> ->] | [k [u0 [m [-> [Hk [Hm Hmin]]]]]]].
      * cbn. exists 0%nat, u, z. repeat split; try assumption.
        intros u' z' [<- | []] Hz'. rewrite Hz in Hz'. injection Hz' as <-. lia.
      * cbn [fst number_ltb]. change (0 + z) with z.
        destruct (Z.ltb_spec z m) as [Hlt | Hge].
        -- exists (List.length seen), u, z. repeat split; try assumption.
           intros u' z' Hu' Hz'. apply in_app_or in Hu'. destruct Hu' as [Hu' | [<- | []]].
           ++ specialize (Hmin u' z' Hu' Hz'). lia.
           ++ rewrite Hz in Hz'. injection Hz' as <-. lia.
        -- exists k, u0, m. repeat split; try assumption.
           ++ rewrite nth_error_app1; [exact Hk |]. apply nth_error_Some. congruence.
           ++ intros u' z' Hu' Hz'. apply in_app_or in Hu'. destruct Hu' as [Hu' | [<- | []]].
              ** exact (Hmin u' z' Hu' Hz').
              ** rewrite Hz in Hz'. injection Hz' as <-. lia.
Qed.

Lemma best_seed (key : Key) (V0 : list Chord) (v : Chord) :
  V0 <> [] ->
  (forall u, In u V0 -> exists z, cost' key u v = Ok z) ->
  exists b, best' key (map (fun u => (u, (Int 0, @None nat))) V0) v = Ok b
            /\ optimalEntry key V0 v (v, b).
Proof.
  intros Hne Hcost. unfold best, enumerate. rewrite length_map.
  destruct (best_seed_fold key v V0 [] (inf, None) Hcost (or_introl (conj eq_refl eq_refl)))
    as [acc' [Hfold Hbest]].
  exists acc'. split; [exact Hfold |].
  simpl in Hbest. destruct Hbest as [[HV _] | [k [u [m [-> H]]]]]; [contradiction |].
  exists k, u, m. split; [reflexivity | exact H].
Qed.

Lemma nextLayer_seed (key : Key) (V0 V1 : list Chord) :
  V0 <> [] ->
  (forall u v, In u V0 -> In v V1 -> exists z, cost' key u v = Ok z) ->
  exists l,
    mapR (fun v => b <- best' key (map (fun u => (u, (Int 0, @None nat))) V0) v ;; Ok (v, b)) V1
    = Ok l
    /\ Forall2 (optimalEntry key V0) V1 l.
Proof.
  intros Hne. induction V1 as [| v V1 IH]; intros Hcost.
  - exists []. split; [reflexivity | constructor].
  - destruct (best_seed key V0 v Hne) as [b [Hb Hopt]];
      [intros u Hu; apply Hcost; [exact Hu | left; reflexivity] |].
    destruct IH as [l [Hl Hall]]; [intros u v' Hu Hv'; apply Hcost; [exact Hu | right; exact Hv'] |].
    exists ((v, b) :: l). cbn [mapR]. rewrite Hb. cbn [bind]. rewrite Hl. cbn [bind].
    split; [reflexivity | constructor; assumption].
Qed.

(** C2: for two chords with voicings, voiceProgression prints the least
    cost over all pairs of a voicing of the first and a voicing of the
    second chord, the minimum that the brute-force comparison finds, and
    returns a pair that attains it. *)
Theorem voiceProgression_two_chords_optimal (key : Key) (chord0 chord1 : RomanNumeral)
    (V0 V1 : list Chord) :
  voiceChord chord0 = Ok V0 ->
  voiceChord chord1 = Ok V1 ->
  V0 <> [] -> V1 <> [] ->
  (forall u v, In u V0 -> In v V1 -> exists z, cost' key u v = Ok z) ->
  exists u v m,
    voiceProgression' key [chord0; chord1] = ([Int m], Ok [u; v])
    /\ In u V0 /\ In v V1
    /\ cost' key u v = Ok m
    /\ (forall u' v' z, In u' V0 -> In v' V1 -> cost' key u' v' = Ok z -> m <= z)
    /\ bruteForceCost' key V0 V1 = Ok (Some m).
Proof.
  intros H0 H1 Hne0 Hne1 Hcost.
  enough (exists u v m,
            voiceProgression' key [chord0; chord1] = ([Int m], Ok [u; v])
            /\ In u V0 /\ In v V1
            /\ cost' key u v = Ok m
            /\ forall u' v' z, In u' V0 -> In v' V1 -> cost' key u' v' = Ok z -> m <= z)
    as [u [v [m [Hrun [Hu [Hv [Hm Hmin]]]]]]].
  { exists u, v, m. repeat split; try assumption.
    unfold bruteForceCost.
    destruct (mapR_total (fun uv => cost' key (fst uv) (snd uv)) (list_prod V0 V1))
      as [costs Hcosts].
    { intros [u' v'] Huv. apply in_prod_iff in Huv. apply Hcost; tauto. }
    rewrite Hcosts. cbn [bind]. f_equal. apply mapR_Forall2 in Hcosts.
    apply minimum_least.
    - destruct (Forall2_In_l _ _ _ _ Hcosts (in_prod _ _ _ _ Hu Hv)) as [z [Hz Hzm]].
      simpl in Hzm. rewrite Hm in Hzm. injection Hzm as ->. exact Hz.
    - intros z Hz. destruct (Forall2_In_r _ _ _ _ Hcosts Hz) as [[u' v'] [Huv Hzc]].
      apply in_prod_iff in Huv. apply (Hmin u' v' z); tauto. }
  destruct (nextLayer_seed key V0 V1 Hne0 Hcost) as [l [Hl Hall]].
  assert (fillLayer' key [] chord0 = Ok [map (fun u => (u, (Int 0, @None nat))) V0]) as Hfirst
    by (unfold fillLayer; rewrite H0; reflexivity).
  assert (fillLayer' key [map (fun u => (u, (Int 0, @None nat))) V0] chord1
          = Ok [map (fun u => (u, (Int 0, @None nat))) V0; l]) as Hsecond
    by (unfold fillLayer; rewrite H1; cbn [bind last]; rewrite Hl; reflexivity).
  unfold voiceProgression. cbn [foldR]. rewrite Hfirst. cbn [bind].
  rewrite Hsecond. cbn [bind app rev].
  pose proof (minEntry_least l) as Hmin.
  destruct (minEntry l) as [[j c] |].
  - destruct Hmin as [[v [p Hj]] Hleast].
    destruct (Forall2_nth_error_r _ _ _ _ _ Hall Hj)
      as [v1 [Hv1 [k [u [m [Heq [Hk [Hm Hmin]]]]]]]].
    injection Heq as -> -> ->.
    exists u, v1, m. cbn [backtrace]. rewrite Hj.
    rewrite nth_error_map, Hk. cbn.
    repeat split.
    + eapply nth_error_In; eassumption.
    + eapply nth_error_In; eassumption.
    + exact Hm.
    + intros u' v' z Hu' Hv' Hz.
      destruct (Forall2_In_l _ _ _ _ Hall Hv') as [e [He [k' [u2 [m' [-> [_ [_ Hmin']]]]]]]].
      specialize (Hleast _ He). cbn in Hleast. apply Z.ltb_ge in Hleast.
      specialize (Hmin' u' z Hu' Hz). lia.
  - simpl in Hmin. subst l. inversion Hall. subst. contradiction.
Qed.

End ProgressionProperties.

(** *** Examples of the dynamic program *)

(** The dominant followed by the tonic of B-flat major: the cost printed
    is 11 and the voicings are F2 C4 F4 A4 and B-flat2 D4 F4 B-flat4. *)
Example voiceProgression_dominant_tonic :
  voiceProgression lowestAsRoot highestAsThird noSeventh keyBflat
                   [dominantBflat; tonicBflat]
  = ([Int 11], Ok [[pitch F 2; pitch C 4; pitch F 4; pitch A 4]; tonicVoicing]).
Proof. vm_compute. reflexivity. Qed.

Example bruteForceCost_dominant_tonic :
  bruteForceCost lowestAsRoot highestAsThird noSeventh keyBflat
                 (voicingsOf dominantBflat) (voicingsOf tonicBflat) = Ok (Some 11).
Proof. vm_compute. reflexivity. Qed.

Lemma voiceProgression_two_chords_optimal_witness :
  exists u v m,
    voiceProgression lowestAsRoot highestAsThird noSeventh keyBflat
                     [dominantBflat; tonicBflat] = ([Int m], Ok [u; v])
    /\ In u (voicingsOf dominantBflat) /\ In v (voicingsOf tonicBflat)
    /\ cost lowestAsRoot highestAsThird noSeventh keyBflat u v = Ok m
    /\ (forall u' v' z,
          In u' (voicingsOf dominantBflat) -> In v' (voicingsOf tonicBflat) ->
          cost lowestAsRoot highestAsThird noSeventh keyBflat u' v' = Ok z -> m <= z)
    /\ bruteForceCost lowestAsRoot highestAsThird noSeventh keyBflat
                       (voicingsOf dominantBflat) (voicingsOf tonicBflat) = Ok (Some m).
Proof.
  apply (voiceProgression_two_chords_optimal lowestAsRoot highestAsThird noSeventh keyBflat
           dominantBflat tonicBflat (voicingsOf dominantBflat) (voicingsOf tonicBflat)).
  - vm_compute. reflexivity.
  - vm_compute. reflexivity.
  - intros H. apply (f_equal (@List.length Chord)) in H. vm_compute in H. discriminate.
  - intros H. apply (f_equal (@List.length Chord)) in H. vm_compute in H. discriminate.
  - intros u v Hu Hv.
    assert (forallb (fun u =>
              forallb (fun v =>
                match cost lowestAsRoot highestAsThird noSeventh keyBflat u v with
                | Ok _ => true
                | Raise _ => false
                end) (voicingsOf tonicBflat)) (voicingsOf dominantBflat) = true) as Hall
      by (vm_compute; reflexivity).
    rewrite forallb_forall in Hall. specialize (Hall u Hu).
    rewrite forallb_forall in Hall. specialize (Hall v Hv).
    destruct (cost lowestAsRoot highestAsThird noSeventh keyBflat u v) as [z | e];
      [exists z; reflexivity | discriminate].
Defined.

(** * More properties of the code *)

(** ** voiceNote *)

(** In a range that starts in octave 0 or above, for a name and bounds
    that stay in their octaves, voiceNote yields every pitch of the name
    that lies strictly between the bounds or is one of them. *)
Theorem voiceNote_complete (noteName : Name) (lo hi p : Pitch) :
  0 <= octave lo ->
  plain noteName -> plain (name lo) -> plain (name hi) ->
  name p = noteName ->
  ps lo < ps p \/ p = lo ->
  ps p < ps hi \/ p = hi ->
  In p (voiceNote noteName (lo, hi)).
Proof.
  unfold plain. intros _ Hn Hlo Hhi Hname Hlow Hhigh. subst noteName.
  apply In_voiceNote. cbn [fst snd]. split; [reflexivity |].
  assert (ps lo <= ps p) as Hle1 by (destruct Hlow as [H | ->]; lia).
  assert (ps p <= ps hi) as Hle2 by (destruct Hhigh as [H | ->]; lia).
  unfold ps in Hle1, Hle2. split; [lia |].
  unfold Pitch_leb, Pitch_ltb. split; apply orb_true_iff.
  - destruct Hlow as [H | ->]; [left; apply Z.ltb_lt; exact H | right; apply Pitch_eqb_eq; reflexivity].
  - destruct Hhigh as [H | ->]; [left; apply Z.ltb_lt; exact H | right; apply Pitch_eqb_eq; reflexivity].
Qed.

Lemma voiceNote_complete_witness :
  (0 <= octave (fst SOPRANO_RANGE)
   /\ plain (natural C) /\ plain (name (fst SOPRANO_RANGE)) /\ plain (name (snd SOPRANO_RANGE))
   /\ (ps (fst SOPRANO_RANGE) < ps (pitch C 5) \/ pitch C 5 = fst SOPRANO_RANGE)
   /\ (ps (pitch C 5) < ps (snd SOPRANO_RANGE) \/ pitch C 5 = snd SOPRANO_RANGE))
  /\ In (pitch C 5) (voiceNote (natural C) SOPRANO_RANGE).
Proof.
  assert (0 <= octave (fst SOPRANO_RANGE)) as H0 by (cbn; lia).
  assert (plain (natural C)) as H1 by (unfold plain; cbn; lia).
  assert (plain (name (fst SOPRANO_RANGE))) as H2 by (unfold plain; cbn; lia).
  assert (plain (name (snd SOPRANO_RANGE))) as H3 by (unfold plain; cbn; lia).
  assert (ps (fst SOPRANO_RANGE) < ps (pitch C 5) \/ pitch C 5 = fst SOPRANO_RANGE) as H4
    by (left; cbn; lia).
  assert (ps (pitch C 5) < ps (snd SOPRANO_RANGE) \/ pitch C 5 = snd SOPRANO_RANGE) as H5
    by (left; cbn; lia).
  split; [exact (conj H0 (conj H1 (conj H2 (conj H3 (conj H4 H5))))) |].
  exact (voiceNote_complete (natural C) (fst SOPRANO_RANGE) (snd SOPRANO_RANGE) (pitch C 5)
           H0 H1 H2 H3 eq_refl H4 H5).
Defined.



(** ** When voiceChord returns *)

Lemma _voiceChord_returns (noteNames : list Name) :
  (List.length noteNames = 4%nat -> exists voicings, _voiceChord noteNames = Ok voicings)
  /\ (List.length noteNames <> 4%nat -> _voiceChord noteNames = Raise AssertionError).
Proof.
  destruct noteNames as [| bass [| n1 [| n2 [| n3 [| n4 rest]]]]]; simpl;
    split; intros H; try lia; try reflexivity.
  unfold _voiceTriadUnordered. cbn [permutations3 bind]. eexists. reflexivity.
Qed.

(** voiceChord checks the number of pitches: for a chord with pitches,
    but not four of them when it contains a seventh, or not three when it
    does not, the assertion of _voiceChord fails before anything is
    yielded; so voiceChord returns only for chords of the right size. *)
Theorem voiceChord_wrong_size (chord : RomanNumeral) :
  pitchNames chord <> [] ->
  (List.length (pitchNames chord) <> expectedPitches chord ->
   voiceChord chord = Raise AssertionError)
  /\ (forall voicings,
        voiceChord chord = Ok voicings ->
        List.length (pitchNames chord) = expectedPitches chord).
Proof.
  intros Hnames.
  assert (List.length (pitchNames chord) <> expectedPitches chord ->
          voiceChord chord = Raise AssertionError) as Hfails.
  { unfold voiceChord, expectedPitches.
    assert (forall x, List.length (pitchNames chord ++ [x]) = 4%nat
                      <-> List.length (pitchNames chord) = 3%nat) as Hlen
      by (intros x; rewrite length_app; simpl; lia).
    destruct (containsSeventh chord).
    - apply _voiceChord_returns.
    - destruct (inversion chord =? 2).
      + destruct (pitchNames chord) as [| first rest] eqn:Heq; [contradiction |].
        rewrite <- Heq in *. intros H. apply _voiceChord_returns. rewrite Hlen. exact H.
      + intros H.
        rewrite (proj2 (_voiceChord_returns (pitchNames chord ++ [rootName chord])));
          [reflexivity |]. rewrite Hlen. exact H. }
  split; [exact Hfails |].
  intros voicings Hok.
  destruct (Nat.eq_dec (List.length (pitchNames chord)) (expectedPitches chord)) as [H | H];
    [exact H |].
  rewrite (Hfails H) in Hok. discriminate.
Qed.

Lemma voiceChord_wrong_size_witness :
  pitchNames dominantNinthBflat <> []
  /\ List.length (pitchNames dominantNinthBflat) <> expectedPitches dominantNinthBflat
  /\ voiceChord dominantNinthBflat = Raise AssertionError.
Proof.
  assert (pitchNames dominantNinthBflat <> []) as Hnames by discriminate.
  assert (List.length (pitchNames dominantNinthBflat) <> expectedPitches dominantNinthBflat)
    as Hsize by discriminate.
  exact (conj Hnames (conj Hsize
           (proj1 (voiceChord_wrong_size dominantNinthBflat Hnames) Hsize))).
Defined.

(** ** The notes of a voicing *)

Lemma insertAscending_Permutation (p : Pitch) (c : Chord) :
  Permutation (insertAscending p c) (p :: c).
Proof.
  induction c as [| q rest IH]; simpl; [apply Permutation_refl |].
  destruct (Pitch_ltb p q); [apply Permutation_refl |].
  eapply Permutation_trans; [apply perm_skip, IH | apply perm_swap].
Qed.

Lemma sortAscending_Permutation (c : Chord) : Permutation (sortAscending c) c.
Proof.
  unfold sortAscending.
  assert (forall sorted, Permutation (fold_left (fun sorted p => insertAscending p sorted) c sorted)
                                     (c ++ sorted)) as H.
  { induction c as [| p c IH]; intros sorted; simpl; [apply Permutation_refl |].
    eapply Permutation_trans; [apply IH |].
    eapply Permutation_trans; [apply Permutation_app_head, insertAscending_Permutation |].
    apply Permutation_sym, Permutation_middle. }
  specialize (H []). rewrite app_nil_r in H. exact H.
Qed.

(** Every voicing of voiceChord is a voicing that _voiceChord makes of
    one of the alternatives. *)
Lemma voiceChord_alternative (chord : RomanNumeral) (voicings : list Chord) (v : Chord) :
  voiceChord chord = Ok voicings -> In v voicings ->
  exists noteNames vs,
    In noteNames (alternatives chord) /\ _voiceChord noteNames = Ok vs /\ In v vs.
Proof.
  unfold voiceChord, alternatives.
  destruct (containsSeventh chord).
  - intros H Hin. exists (pitchNames chord), voicings. simpl. auto.
  - destruct (inversion chord =? 2).
    + destruct (pitchNames chord) as [| first rest]; [discriminate |].
      intros H Hin. exists ((first :: rest) ++ [first]), voicings. simpl. auto.
    + intros Heq Hin.
      bind_inv Heq. bind_inv Heq. bind_inv Heq. bind_inv Heq.
      injection Heq as <-. rewrite !in_app_iff in Hin.
      destruct Hin as [Hin | [Hin | [Hin | Hin]]].
      * exists (pitchNames chord ++ [rootName chord]), x. simpl. auto.
      * exists (pitchNames chord ++ [thirdName chord]), x0. simpl. auto.
      * exists (pitchNames chord ++ [fifthName chord]), x1. simpl. auto 6.
      * destruct (String.eqb (romanNumeral chord) "I" && (inversion chord =? 0)).
        -- exists (repeat (rootName chord) 3 ++ [thirdName chord]), x2.
           split; [right; right; right; left; reflexivity | auto].
        -- injection Hx2 as <-. destruct Hin.
Qed.

Lemma _voiceTriadUnordered_names (noteNames : list Name) (chords : list Chord) (c : Chord) :
  _voiceTriadUnordered noteNames = Ok chords -> In c chords ->
  exists t a s,
    c = [t; a; s]
    /\ ps t <= ps a /\ ps a <= ps s
    /\ Permutation [name t; name a; name s] noteNames.
Proof.
  intros Heq Hin.
  destruct (_voiceTriadUnordered_upperVoiced _ _ _ Heq Hin)
    as [t [a [s [-> [Hta [Has _]]]]]].
  exists t, a, s. repeat split; try assumption.
  unfold _voiceTriadUnordered in Heq. bind_inv Heq. injection Heq as <-.
  apply in_flat_map in Hin. destruct Hin as [[[tenor alto] soprano] [Hperm Hin]].
  destruct noteNames as [| x0 [| y [| z [| w rest]]]]; try discriminate.
  cbn [permutations3] in Hx. injection Hx as <-.
  apply in_flat_map in Hin. destruct Hin as [s' [Hs Hin]].
  apply in_flat_map in Hin. destruct Hin as [a' [Ha Hin]].
  apply in_map_iff in Hin. destruct Hin as [t' [Heq Ht]].
  injection Heq as -> -> ->.
  apply In_voiceNote in Hs, Ha, Ht.
  destruct Hs as [-> _], Ha as [-> _], Ht as [-> _].
  simpl in Hperm.
  repeat (destruct Hperm as [Hperm | Hperm]; [injection Hperm as <- <- <- |]);
    [.. | destruct Hperm].
  - apply Permutation_refl.
  - apply perm_skip, perm_swap.
  - apply perm_swap.
  - eapply Permutation_trans; [apply perm_skip, perm_swap | apply perm_swap].
  - eapply Permutation_trans; [apply perm_swap | apply perm_skip, perm_swap].
  - eapply Permutation_trans; [apply perm_swap |].
    eapply Permutation_trans; [apply perm_skip, perm_swap | apply perm_swap].
Qed.

(** What _voiceChord makes of four names: the bass and three ordered
    upper voices, sorted together. *)
Lemma _voiceChord_shape (noteNames : list Name) (voicings : list Chord) (v : Chord) :
  _voiceChord noteNames = Ok voicings -> In v voicings ->
  exists bass rest b t a s,
    noteNames = bass :: rest
    /\ v = Chord_add [t; a; s] b
    /\ name b = bass
    /\ Permutation [name t; name a; name s] rest
    /\ ps b <= ps t /\ ps t <= ps a /\ ps a <= ps s.
Proof.
  unfold _voiceChord.
  destruct noteNames as [| bass [| n1 [| n2 [| n3 [| n4 rest]]]]]; try discriminate.
  intros Heq Hin. bind_inv Heq. injection Heq as <-.
  apply in_flat_map in Hin. destruct Hin as [chord [Hchord Hin]].
  apply in_flat_map in Hin. destruct Hin as [b [Hb Hin]].
  destruct (_voiceTriadUnordered_names _ _ _ Hx Hchord) as [t [a [s [-> [Hta [Has Hperm]]]]]].
  unfold belowBass in Hin. rewrite (Chord_bass_ordered t a s Hta Has) in Hin.
  destruct (Pitch_leb b t) eqn:Hle; [| contradiction].
  destruct Hin as [<- | []].
  apply Pitch_leb_ps in Hle. apply In_voiceNote in Hb. destruct Hb as [Hname _].
  exists bass, [n1; n2; n3], b, t, a, s. repeat split; assumption.
Qed.

(** Every voicing holds exactly the four names of one of the chord's
    alternatives: the chord's own names and the one doubled. *)
Theorem voicing_names (chord : RomanNumeral) (voicings : list Chord) (v : Chord) :
  voiceChord chord = Ok voicings -> In v voicings ->
  exists noteNames,
    In noteNames (alternatives chord) /\ Permutation (map name v) noteNames.
Proof.
  intros Heq Hin.
  destruct (voiceChord_alternative chord voicings v Heq Hin) as [noteNames [vs [Halt [Hvs Hv]]]].
  exists noteNames. split; [exact Halt |].
  destruct (_voiceChord_shape _ _ _ Hvs Hv)
    as [bass [rest [b [t [a [s [-> [-> [Hb [Hperm _]]]]]]]]]].
  unfold Chord_add.
  eapply Permutation_trans; [apply Permutation_map, sortAscending_Permutation |].
  simpl. rewrite Hb.
  eapply Permutation_trans;
    [apply (Permutation_sym (Permutation_cons_append [name t; name a; name s] bass)) |].
  apply perm_skip. exact Hperm.
Qed.

Lemma voicing_names_witness :
  In tonicVoicing (voicingsOf tonicBflat)
  /\ exists noteNames,
       In noteNames (alternatives tonicBflat)
       /\ Permutation (map name tonicVoicing) noteNames.
Proof.
  assert (In tonicVoicing (voicingsOf tonicBflat)) as Hin
    by (vm_compute; left; reflexivity).
  split; [exact Hin |].
  apply (voicing_names tonicBflat (voicingsOf tonicBflat) tonicVoicing);
    [vm_compute; reflexivity | exact Hin].
Defined.

(** The bass is kept: a lowest pitch of every voicing has the first name
    of its alternative, which is the chord's first pitch name or, in the
    alternative added for the tonic triad, the root. *)
Theorem voicing_keeps_bass (chord : RomanNumeral) (voicings : list Chord) (v : Chord) :
  voiceChord chord = Ok voicings -> In v voicings ->
  exists p,
    In p v
    /\ (forall q, In q v -> ps p <= ps q)
    /\ (hd_error (pitchNames chord) = Some (name p)
        \/ (String.eqb (romanNumeral chord) "I" && (inversion chord =? 0) = true
            /\ containsSeventh chord = false
            /\ name p = rootName chord)).
Proof.
  intros Heq Hin.
  destruct (voiceChord_alternative chord voicings v Heq Hin) as [noteNames [vs [Halt [Hvs Hv]]]].
  destruct (_voiceChord_shape _ _ _ Hvs Hv)
    as [bass [rest [b [t [a [s [-> [-> [Hb [Hrest [Hbt [Hta Has]]]]]]]]]]]].
  apply Permutation_length in Hrest.
  pose proof (sortAscending_Permutation ([t; a; s] ++ [b])) as Hperm.
  exists b. split; [| split].
  - unfold Chord_add. eapply Permutation_in; [apply Permutation_sym, Hperm |].
    simpl. tauto.
  - intros q Hq. unfold Chord_add in Hq.
    apply (Permutation_in _ Hperm) in Hq. simpl in Hq.
    destruct Hq as [<- | [<- | [<- | [<- | []]]]]; lia.
  - rewrite Hb. unfold alternatives in Halt.
    destruct (containsSeventh chord).
    + left. destruct Halt as [Halt | []]. rewrite Halt. reflexivity.
    + destruct (inversion chord =? 2).
      * left. destruct (pitchNames chord) as [| first l]; [destruct Halt |].
        destruct Halt as [Halt | []]. simpl in Halt. injection Halt as -> _. reflexivity.
      * apply in_app_or in Halt. destruct Halt as [Halt | Halt].
        -- left. destruct (pitchNames chord) as [| first l] eqn:Hnames.
           ++ simpl in Halt.
              destruct Halt as [H | [H | [H | []]]]; injection H as _ <-; discriminate.
           ++ simpl in Halt.
              destruct Halt as [H | [H | [H | []]]]; injection H as -> _; reflexivity.
        -- destruct (String.eqb (romanNumeral chord) "I" && (inversion chord =? 0));
             [| destruct Halt].
           right. destruct Halt as [Halt | []]. simpl in Halt.
           injection Halt as -> _. auto.
Qed.

Lemma voicing_keeps_bass_witness :
  In tonicVoicing (voicingsOf tonicBflat)
  /\ exists p,
       In p tonicVoicing
       /\ (forall q, In q tonicVoicing -> ps p <= ps q)
       /\ (hd_error (pitchNames tonicBflat) = Some (name p)
           \/ (String.eqb (romanNumeral tonicBflat) "I" && (inversion tonicBflat =? 0) = true
               /\ containsSeventh tonicBflat = false
               /\ name p = rootName tonicBflat)).
Proof.
  assert (In tonicVoicing (voicingsOf tonicBflat)) as Hin
    by (vm_compute; left; reflexivity).
  split; [exact Hin |].
  apply (voicing_keeps_bass tonicBflat (voicingsOf tonicBflat) tonicVoicing);
    [vm_compute; reflexivity | exact Hin].
Defined.

(** ** More on the cost of a transition *)

Lemma motion_grows (chord1 chord2 : Chord) (score score' : Z) (ij : nat * nat) :
  motion chord1 chord2 score ij = Ok score' -> score <= score'.
Proof.
  unfold motion. destruct ij as [i j]. intros H.
  bind_inv H. bind_inv H. bind_inv H. bind_inv H. injection H as <-.
  repeat match goal with |- context [if ?b then _ else _] => destruct b end; lia.
Qed.

Lemma foldR_motion_grows (chord1 chord2 : Chord) (l : list (nat * nat)) (score score' : Z) :
  foldR (motion chord1 chord2) l score = Ok score' -> score <= score'.
Proof.
  revert score. induction l as [| ij l IH]; intros score H; simpl in H.
  - injection H as <-. lia.
  - bind_inv H. apply motion_grows in Hx. apply IH in H. lia.
Qed.

(** The loop over the pairs charges at least what one of its pairs is
    charged. *)
Lemma foldR_motion_includes (chord1 chord2 : Chord) (l : list (nat * nat))
    (ij : nat * nat) (score score' d : Z) :
  In ij l ->
  motion chord1 chord2 0 ij = Ok d ->
  foldR (motion chord1 chord2) l score = Ok score' ->
  score + d <= score'.
Proof.
  revert score. induction l as [| x l IH]; intros score Hin Hd H; [destruct Hin |].
  simpl in H. bind_inv H. destruct Hin as [-> | Hin].
  - rewrite motion_additive, Hd in Hx. cbn [bind] in Hx. injection Hx as <-.
    apply foldR_motion_grows in H. exact H.
  - apply motion_grows in Hx. specialize (IH _ Hin Hd H). lia.
Qed.

Section MoreCostProperties.

Variable Chord_root : Chord -> Pitch.
Variable Chord_third : Chord -> option Pitch.
Variable Chord_seventh : Chord -> option Pitch.

Local Abbreviation seventhRule' := (seventhRule Chord_seventh).
Local Abbreviation leadingToneRule' := (leadingToneRule Chord_root Chord_third).
Local Abbreviation cost' := (cost Chord_root Chord_third Chord_seventh).

Lemma cost_parts (key : Key) (chord1 chord2 : Chord) (z : Z) :
  cost' key chord1 chord2 = Ok z ->
  exists o l m s t,
    overlapPenalty chord1 chord2 = Ok o
    /\ leapPenalty chord1 chord2 = Ok l
    /\ motionPenalty chord1 chord2 = Ok m
    /\ seventhRule' chord1 chord2 0 = Ok s
    /\ leadingToneRule' key chord1 chord2 0 = Ok t
    /\ z = o + l + m + s + t
    /\ 0 <= o /\ 0 <= l /\ 0 <= m /\ 0 <= s /\ 0 <= t.
Proof.
  rewrite cost_sum. intros H.
  bind_inv H. bind_inv H. bind_inv H. bind_inv H. bind_inv H. injection H as <-.
  exists x, x0, x1, x2, x3. repeat split; try assumption.
  - unfold overlapPenalty in Hx. bind_inv Hx. injection Hx as <-. destruct x4; lia.
  - unfold leapPenalty in Hx0.
    bind_inv Hx0. bind_inv Hx0. bind_inv Hx0. bind_inv Hx0. injection Hx0 as <-.
    change (0 <= (x4 / 2) ^ 2 + x5 ^ 2 + x6 ^ 2 + x7 ^ 2 / 10).
    rewrite !Z.pow_2_r.
    assert (0 <= x7 * x7 / 10) by (apply Z.div_pos; nia). nia.
  - apply foldR_motion_grows in Hx1. exact Hx1.
  - unfold seventhRule in Hx2. destruct (Chord_seventh chord1); [| injection Hx2 as <-; lia].
    bind_inv Hx2. bind_inv Hx2. injection Hx2 as <-.
    match goal with |- context [if ?b then _ else _] => destruct b end; lia.
  - unfold leadingToneRule in Hx3.
    destruct (Name_eqb (name (Chord_root chord1)) (getDominant key)
              && Name_eqb (name (Chord_root chord2)) (getTonic key));
      [| injection Hx3 as <-; lia].
    destruct (Chord_third chord1); [| discriminate].
    bind_inv Hx3. bind_inv Hx3. injection Hx3 as <-.
    match goal with |- context [if ?b then _ else _] => destruct b end; lia.
Qed.

(** cost never returns a negative number. *)
Theorem cost_nonnegative (key : Key) (chord1 chord2 : Chord) (z : Z) :
  cost' key chord1 chord2 = Ok z -> 0 <= z.
Proof.
  intros H. destruct (cost_parts key chord1 chord2 z H)
    as [o [l [m [s [t [_ [_ [_ [_ [_ [-> [Ho [Hl [Hm [Hs Ht]]]]]]]]]]]]]]].
  lia.
Qed.

(** Two voices that are a fifth apart in both chords (7 semitones, up to
    octaves) cost at least 60, and two voices a unison or octaves apart
    in both chords cost at least 100, whatever else happens. *)
Theorem cost_parallel_intervals (key : Key) (chord1 chord2 : Chord) (i j : nat)
    (b1 t1 b2 t2 : Pitch) (z : Z) :
  In (i, j) pairs ->
  getitem chord1 i = Ok b1 -> getitem chord1 j = Ok t1 ->
  getitem chord2 i = Ok b2 -> getitem chord2 j = Ok t2 ->
  cost' key chord1 chord2 = Ok z ->
  ((midi t1 - midi b1) mod 12 = 7 -> (midi t2 - midi b2) mod 12 = 7 -> 60 <= z)
  /\ ((midi t1 - midi b1) mod 12 = 0 -> (midi t2 - midi b2) mod 12 = 0 -> 100 <= z).
Proof.
  intros Hin Hb1 Ht1 Hb2 Ht2 Hz.
  destruct (cost_parts key chord1 chord2 z Hz)
    as [o [l [m [s [t [_ [_ [Hm [_ [_ [-> [Ho [Hl [_ [Hs Ht]]]]]]]]]]]]]]].
  assert (exists d, motion chord1 chord2 0 (i, j) = Ok d
                    /\ ((midi t1 - midi b1) mod 12 = 7 -> (midi t2 - midi b2) mod 12 = 7 -> 60 <= d)
                    /\ ((midi t1 - midi b1) mod 12 = 0 -> (midi t2 - midi b2) mod 12 = 0 -> 100 <= d))
    as [d [Hd [H7 H0]]].
  { unfold motion. rewrite Ht1, Ht2, Hb1, Hb2. cbn [bind]. eexists. split; [reflexivity |].
    split; intros E1 E2; rewrite E1, E2; cbn [Z.eqb Pos.eqb andb];
      match goal with |- context [if ?b then _ else _] => destruct b end; lia. }
  unfold motionPenalty in Hm.
  pose proof (foldR_motion_includes chord1 chord2 pairs (i, j) 0 m d Hin Hd Hm) as Hle.
  split; intros E1 E2; [specialize (H7 E1 E2) | specialize (H0 E1 E2)]; lia.
Qed.

End MoreCostProperties.

(** ** The exceptions of cost *)

Lemma getitem_raises (c : Chord) (i : nat) (e : exn) :
  getitem c i = Raise e -> e = IndexError /\ (List.length c <= i)%nat.
Proof.
  unfold getitem. destruct (nth_error c i) eqn:Hn; [discriminate |].
  intros H. injection H as <-. split; [reflexivity | apply nth_error_None; exact Hn].
Qed.

Lemma Chord_getitem_raises (c : Chord) (i : nat) (e : exn) :
  Chord_getitem c i = Raise e -> e = KeyError /\ (List.length c <= i)%nat.
Proof.
  unfold Chord_getitem. destruct (nth_error c i) eqn:Hn; [discriminate |].
  intros H. injection H as <-. split; [reflexivity | apply nth_error_None; exact Hn].
Qed.

Lemma Chord_getitem_returns (c : Chord) (i : nat) (p : Pitch) :
  Chord_getitem c i = Ok p -> (i < List.length c)%nat.
Proof.
  unfold Chord_getitem. destruct (nth_error c i) eqn:Hn; [| discriminate].
  intros _. apply nth_error_Some. congruence.
Qed.

(** The overlap test raises nothing but the KeyError of [chord[i]]. *)
Lemma overlapping_raises (chord1 chord2 : Chord) (e : exn) :
  overlapping chord1 chord2 = Raise e -> e = KeyError.
Proof.
  unfold overlapping, orR, gtR, ltR.
  repeat match goal with
         | |- context [Chord_getitem ?c ?i] =>
             let H := fresh "H" in
             destruct (Chord_getitem c i) eqn:H; cbn [bind];
             [| apply Chord_getitem_raises in H; destruct H as [-> _]; congruence]
         | |- context [if ?b then _ else _] => destruct b; cbn [bind]
         end; discriminate.
Qed.

(** The overlap test answers no only after its last comparison, which
    reads the fourth note of each chord. *)
Lemma overlapping_false (chord1 chord2 : Chord) :
  overlapping chord1 chord2 = Ok false ->
  (3 < List.length chord1)%nat /\ (3 < List.length chord2)%nat.
Proof.
  unfold overlapping, orR. intros H.
  bind_inv H. destruct x; [discriminate |].
  bind_inv H. destruct x; [discriminate |].
  bind_inv H. destruct x; [discriminate |].
  bind_inv H. destruct x; [discriminate |].
  bind_inv H. destruct x; [discriminate |].
  unfold gtR in Hx3. bind_inv Hx3. bind_inv Hx3.
  unfold ltR in H. bind_inv H.
  split; eapply Chord_getitem_returns; eassumption.
Qed.

Lemma jump_returns (chord1 chord2 : Chord) (i : nat) (d : Z) :
  jump chord1 chord2 i = Ok d -> (i < List.length chord1)%nat /\ (i < List.length chord2)%nat.
Proof.
  unfold jump, getitem. intros H.
  destruct (nth_error chord1 i) eqn:H1; [| discriminate].
  destruct (nth_error chord2 i) eqn:H2; [| discriminate].
  split; apply nth_error_Some; congruence.
Qed.

Lemma jump_raises (chord1 chord2 : Chord) (i : nat) (e : exn) :
  jump chord1 chord2 i = Raise e -> e = IndexError.
Proof.
  unfold jump. intros H.
  destruct (getitem chord1 i) eqn:H1;
    [| apply getitem_raises in H1; destruct H1 as [-> _]; simpl in H; congruence].
  destruct (getitem chord2 i) eqn:H2;
    [discriminate | apply getitem_raises in H2; destruct H2 as [-> _]; simpl in H; congruence].
Qed.

Section CostExceptions.

Variable Chord_root : Chord -> Pitch.
Variable Chord_third : Chord -> option Pitch.
Variable Chord_seventh : Chord -> option Pitch.

Local Abbreviation seventhRule' := (seventhRule Chord_seventh).
Local Abbreviation leadingToneRule' := (leadingToneRule Chord_root Chord_third).
Local Abbreviation cost' := (cost Chord_root Chord_third Chord_seventh).

(** cost needs four notes in each chord, whatever music21 finds in the
    chords.  With fewer in either, the overlap test raises KeyError when
    it comes to a note that is not there ([chord[i]] on the chord), and
    so does cost; when an earlier comparison of the test holds, the test
    is cut short, 50 is counted, and cost raises IndexError at the leap
    of a voice that is not there ([chord.pitches[i]] on the list). *)
Theorem cost_needs_four_notes (key : Key) (chord1 chord2 : Chord) :
  (List.length chord1 < 4)%nat \/ (List.length chord2 < 4)%nat ->
  (overlapping chord1 chord2 = Raise KeyError
   /\ cost' key chord1 chord2 = Raise KeyError)
  \/ (overlapping chord1 chord2 = Ok true
      /\ cost' key chord1 chord2 = Raise IndexError).
Proof.
  intros Hshort. unfold cost.
  destruct (overlapping chord1 chord2) as [crossed | e] eqn:Ho; cbn [bind];
    [| apply overlapping_raises in Ho; subst e; left; split; reflexivity].
  destruct crossed; [| apply overlapping_false in Ho; lia].
  right. split; [reflexivity |].
  destruct (jump chord1 chord2 0) as [d0 | e] eqn:H0; cbn [bind];
    [| apply jump_raises in H0; subst e; reflexivity].
  destruct (jump chord1 chord2 1) as [d1 | e] eqn:H1; cbn [bind];
    [| apply jump_raises in H1; subst e; reflexivity].
  destruct (jump chord1 chord2 2) as [d2 | e] eqn:H2; cbn [bind];
    [| apply jump_raises in H2; subst e; reflexivity].
  destruct (jump chord1 chord2 3) as [d3 | e] eqn:H3; cbn [bind];
    [| apply jump_raises in H3; subst e; reflexivity].
  apply jump_returns in H3. lia.
Qed.

(** A dominant in which music21 finds no third, followed by the tonic:
    cost raises ValueError (the position of [None] is asked for), when
    the seventh rule before it went through. *)
Theorem cost_dominant_without_third (key : Key) (bA tA aA sA bB tB aB sB : Pitch) :
  let chordA := [bA; tA; aA; sA] in
  let chordB := [bB; tB; aB; sB] in
  (forall p, Chord_seventh chordA = Some p -> In p chordA) ->
  name (Chord_root chordA) = getDominant key ->
  name (Chord_root chordB) = getTonic key ->
  Chord_third chordA = None ->
  cost' key chordA chordB = Raise ValueError.
Proof.
  intros chordA chordB Hseventh HA HB Hthird. rewrite cost_sum.
  unfold chordA, chordB. rewrite overlapPenalty_four, leapPenalty_four. cbn [bind].
  destruct (motionPenalty_returns bA tA aA sA bB tB aB sB) as [m ->]. cbn [bind].
  fold chordA chordB.
  assert (exists s, seventhRule' chordA chordB 0 = Ok s) as [s ->].
  { unfold seventhRule. destruct (Chord_seventh chordA) as [p |] eqn:Hp;
      [| eexists; reflexivity].
    destruct (index_member chordA p (Hseventh p eq_refl)) as [i [-> Hi]]. cbn [bind].
    destruct (getitem_returns chordB i Hi) as [q ->]. cbn [bind]. eexists. reflexivity. }
  cbn [bind]. unfold leadingToneRule. rewrite HA, HB, Hthird.
  rewrite !(proj2 (Name_eqb_eq _ _) eq_refl). reflexivity.
Qed.

(** The seventh of the first chord, in the voice that carries it, may
    stay or fall by one or two semitones; any other motion costs 80. *)
Theorem cost_seventh_penalty (key : Key) (chordA chordB : Chord)
    (seventh q : Pitch) (voice : nat) :
  Chord_seventh chordA = Some seventh ->
  index chordA seventh = Ok voice ->
  getitem chordB voice = Ok q ->
  cost' key chordA chordB
  = (o <- overlapPenalty chordA chordB ;;
     l <- leapPenalty chordA chordB ;;
     m <- motionPenalty chordA chordB ;;
     t <- leadingToneRule' key chordA chordB 0 ;;
     Ok (o + l + m
         + (if (-2 <=? midi q - midi seventh) && (midi q - midi seventh <=? 0)
            then 0 else 80)
         + t)).
Proof.
  intros Hseventh Hindex Hq. rewrite cost_sum.
  unfold seventhRule at 1. rewrite Hseventh, Hindex. cbn [bind]. rewrite Hq. cbn [bind].
  destruct (overlapPenalty chordA chordB); cbn [bind]; [| reflexivity].
  destruct (leapPenalty chordA chordB); cbn [bind]; [| reflexivity].
  destruct (motionPenalty chordA chordB); cbn [bind]; [| reflexivity].
  destruct (leadingToneRule' key chordA chordB 0); cbn [bind]; [| reflexivity].
  f_equal. f_equal. f_equal.
  destruct (Z.ltb_spec (midi q - midi seventh) (-2));
    destruct (Z.ltb_spec 0 (midi q - midi seventh));
    destruct (Z.leb_spec (-2) (midi q - midi seventh));
    destruct (Z.leb_spec (midi q - midi seventh) 0); cbn; lia.
Qed.

End CostExceptions.

(** *** Examples of the cost *)

Lemma cost_nonnegative_witness :
  cost lowestAsRoot highestAsThird noSeventh keyBflat dominantVoicing tonicVoicing = Ok 14
  /\ 0 <= 14.
Proof.
  assert (cost lowestAsRoot highestAsThird noSeventh keyBflat dominantVoicing tonicVoicing
          = Ok 14) as H by reflexivity.
  split; [exact H |].
  exact (cost_nonnegative lowestAsRoot highestAsThird noSeventh keyBflat
           dominantVoicing tonicVoicing 14 H).
Defined.

Lemma cost_parallel_intervals_witness :
  (In (0%nat, 1%nat) pairs
   /\ cost lowestAsRoot highestAsThird noSeventh keyBflat tonicCVoicing tonicCVoicing = Ok 160
   /\ (midi (pitch G 3) - midi (pitch C 3)) mod 12 = 7)
  /\ 60 <= 160.
Proof.
  assert (In (0%nat, 1%nat) pairs) as Hin by (left; reflexivity).
  assert (cost lowestAsRoot highestAsThird noSeventh keyBflat tonicCVoicing tonicCVoicing
          = Ok 160) as Hcost by reflexivity.
  assert ((midi (pitch G 3) - midi (pitch C 3)) mod 12 = 7) as Hfifth by reflexivity.
  split; [exact (conj Hin (conj Hcost Hfifth)) |].
  destruct (cost_parallel_intervals lowestAsRoot highestAsThird noSeventh keyBflat
              tonicCVoicing tonicCVoicing 0 1
              (pitch C 3) (pitch G 3) (pitch C 3) (pitch G 3) 160
              Hin eq_refl eq_refl eq_refl eq_refl Hcost) as [H7 _].
  exact (H7 Hfifth Hfifth).
Defined.

Lemma cost_needs_four_notes_witness :
  ((List.length threeNotes < 4)%nat \/ (List.length tonicCVoicing < 4)%nat)
  /\ ((overlapping threeNotes tonicCVoicing = Raise KeyError
       /\ cost lowestAsRoot highestAsThird noSeventh keyBflat threeNotes tonicCVoicing
          = Raise KeyError)
      \/ (overlapping threeNotes tonicCVoicing = Ok true
          /\ cost lowestAsRoot highestAsThird noSeventh keyBflat threeNotes tonicCVoicing
             = Raise IndexError)).
Proof.
  assert ((List.length threeNotes < 4)%nat \/ (List.length tonicCVoicing < 4)%nat) as H
    by (left; simpl; lia).
  split; [exact H |].
  exact (cost_needs_four_notes lowestAsRoot highestAsThird noSeventh keyBflat
           threeNotes tonicCVoicing H).
Defined.

(** C3 E3 G3 followed by C3 G3 E4 C5: no comparison holds before the test
    asks for the fourth note of the first chord, and cost raises KeyError.
    Followed by F3 C4 F4 A4: the first comparison holds (F3 is above E3),
    and cost raises IndexError at the leaps. *)
Example cost_three_notes_KeyError :
  cost lowestAsRoot highestAsThird noSeventh keyBflat threeNotes tonicCVoicing
  = Raise KeyError.
Proof. reflexivity. Qed.

Example cost_three_notes_IndexError :
  overlapping threeNotes dominantVoicing = Ok true
  /\ cost lowestAsRoot highestAsThird noSeventh keyBflat threeNotes dominantVoicing
     = Raise IndexError.
Proof. split; reflexivity. Qed.

Lemma cost_dominant_without_third_witness :
  (name (lowestAsRoot dominantVoicing) = getDominant keyBflat
   /\ name (lowestAsRoot tonicVoicing) = getTonic keyBflat
   /\ noThird dominantVoicing = None)
  /\ cost lowestAsRoot noThird noSeventh keyBflat dominantVoicing tonicVoicing
     = Raise ValueError.
Proof.
  split; [repeat split |].
  refine (cost_dominant_without_third lowestAsRoot noThird noSeventh keyBflat
            (pitch F 3) (pitch C 4) (pitch F 4) (pitch A 4)
            (mkPitch (flat B) 2) (pitch D 4) (pitch F 4) (mkPitch (flat B) 4)
            _ eq_refl eq_refl eq_refl).
  intros p Hp. discriminate.
Defined.

Lemma cost_seventh_penalty_witness :
  (highestAsSeventh dominantSeventhVoicing = Some (mkPitch (flat E) 4)
   /\ index dominantSeventhVoicing (mkPitch (flat E) 4) = Ok 3%nat
   /\ getitem tonicCloseVoicing 3 = Ok (pitch D 4))
  /\ cost lowestAsRoot highestAsThird highestAsSeventh keyBflat
          dominantSeventhVoicing tonicCloseVoicing
     = (o <- overlapPenalty dominantSeventhVoicing tonicCloseVoicing ;;
        l <- leapPenalty dominantSeventhVoicing tonicCloseVoicing ;;
        m <- motionPenalty dominantSeventhVoicing tonicCloseVoicing ;;
        t <- leadingToneRule lowestAsRoot highestAsThird keyBflat
                             dominantSeventhVoicing tonicCloseVoicing 0 ;;
        Ok (o + l + m + 0 + t)).
Proof.
  split; [repeat split |].
  exact (cost_seventh_penalty lowestAsRoot highestAsThird highestAsSeventh keyBflat
           dominantSeventhVoicing tonicCloseVoicing (mkPitch (flat E) 4) (pitch D 4) 3
           eq_refl eq_refl eq_refl).
Defined.

(** ** The dynamic program on progressions of any length *)

Section ProgressionOptimality.

Variable Chord_root : Chord -> Pitch.
Variable Chord_third : Chord -> option Pitch.
Variable Chord_seventh : Chord -> option Pitch.

Local Abbreviation cost' := (cost Chord_root Chord_third Chord_seventh).
Local Abbreviation bestStep' := (bestStep Chord_root Chord_third Chord_seventh).
Local Abbreviation best' := (best Chord_root Chord_third Chord_seventh).
Local Abbreviation fillLayer' := (fillLayer Chord_root Chord_third Chord_seventh).
Local Abbreviation voiceProgression' :=
  (voiceProgression Chord_root Chord_third Chord_seventh).
Local Abbreviation pathCost' := (pathCost Chord_root Chord_third Chord_seventh).
Local Abbreviation reaches' := (reaches Chord_root Chord_third Chord_seventh).
Local Abbreviation tableOptimal' := (tableOptimal Chord_root Chord_third Chord_seventh).
Local Abbreviation bestAmong' := (bestAmong Chord_root Chord_third Chord_seventh).

Lemma pathCost_two (key : Key) (u v : Chord) (rest : list Chord) :
  pathCost' key (u :: v :: rest)
  = (c <- cost' key u v ;; r <- pathCost' key (v :: rest) ;; Ok (c + r)).
Proof. reflexivity. Qed.

(** A path one chord longer costs the path plus the last transition. *)
Lemma pathCost_snoc (key : Key) (q : list Chord) (u v : Chord) (z : Z) :
  pathCost' key ((q ++ [u]) ++ [v]) = Ok z
  <-> exists a c, pathCost' key (q ++ [u]) = Ok a /\ cost' key u v = Ok c /\ z = a + c.
Proof.
  revert z. induction q as [| w q IH]; intros z.
  - cbn [app]. rewrite pathCost_two. cbn [pathCost]. split.
    + intros H. bind_inv H. cbn [bind] in H. injection H as <-.
      exists 0, x. repeat split; [exact Hx | lia].
    + intros [a [c [Ha [Hc ->]]]]. injection Ha as <-. rewrite Hc. cbn [bind].
      f_equal. lia.
  - cbn [app]. destruct (q ++ [u]) as [| h t] eqn:Eq.
    { destruct q; discriminate. }
    cbn [app]. rewrite !pathCost_two. cbn [app] in IH. split.
    + intros H. bind_inv H. bind_inv H. injection H as <-.
      apply IH in Hx0. destruct Hx0 as [a [c [Ha [Hc ->]]]].
      exists (x + a), c. rewrite Hx, Ha. cbn [bind]. repeat split; [exact Hc | lia].
    + intros [a [c [Ha [Hc ->]]]]. bind_inv Ha. bind_inv Ha. injection Ha as <-.
      rewrite Hx. cbn [bind].
      rewrite (proj2 (IH (x0 + c)) (ex_intro _ x0 (ex_intro _ c (conj Hx0 (conj Hc eq_refl))))).
      cbn [bind]. f_equal. lia.
Qed.

Lemma best_fold (key : Key) (v : Chord) (l seen : layer) (acc : number * option nat) :
  (forall e, In e l -> exists m, fst (snd e) = Int m) ->
  (forall e, In e l -> exists z, cost' key (fst e) v = Ok z) ->
  bestAmong' key v seen acc ->
  exists acc',
    foldR (bestStep' key v) (combine (seq (List.length seen) (List.length l)) l) acc = Ok acc'
    /\ bestAmong' key v (seen ++ l) acc'.
Proof.
  revert seen acc. induction l as [| [u [cu pu]] l IH]; intros seen acc Hint Hcost Hacc.
  - exists acc. rewrite app_nil_r. split; [reflexivity | exact Hacc].
  - cbn [List.length seq combine foldR bestStep].
    destruct (Hint _ (or_introl eq_refl)) as [mu Hmu]. cbn [fst snd] in Hmu. subst cu.
    destruct (Hcost _ (or_introl eq_refl)) as [z Hz]. cbn [fst] in Hz.
    rewrite Hz. cbn [bind number_add].
    specialize (IH (seen ++ [(u, (Int mu, pu))])).
    rewrite length_app, <- app_assoc in IH. cbn [List.length app] in IH.
    rewrite Nat.add_1_r in IH. apply IH.
    + intros e He. apply Hint. right. exact He.
    + intros e He. apply Hcost. right. exact He.
    + assert (nth_error (seen ++ [(u, (Int mu, pu))]) (List.length seen)
              = Some (u, (Int mu, pu))) as Hnew
        by (rewrite nth_error_app2, Nat.sub_diag by lia; reflexivity).
      right. destruct Hacc as [[-> ->] | [k [u0 [mk [pk [c [-> [Hk [Hc Hmin]]]]]]]]].
      * cbn. exists 0%nat, u, mu, pu, z. repeat split; try assumption.
        intros u' m' p' z' [He | []] Hz'. injection He as <- <- <-.
        rewrite Hz in Hz'. injection Hz' as <-. lia.
      * cbn [fst number_ltb].
        destruct (Z.ltb_spec (mu + z) (mk + c)) as [Hlt | Hge].
        -- exists (List.length seen), u, mu, pu, z. repeat split; try assumption.
           intros u' m' p' z' He Hz'. apply in_app_or in He. destruct He as [He | [He | []]].
           ++ specialize (Hmin u' m' p' z' He Hz'). lia.
           ++ injection He as <- <- <-. rewrite Hz in Hz'. injection Hz' as <-. lia.
        -- exists k, u0, mk, pk, c. repeat split; try assumption.
           ++ rewrite nth_error_app1; [exact Hk |]. apply nth_error_Some. congruence.
           ++ intros u' m' p' z' He Hz'. apply in_app_or in He. destruct He as [He | [He | []]].
              ** exact (Hmin u' m' p' z' He Hz').
              ** injection He as <- <- <-. rewrite Hz in Hz'. injection Hz' as <-. lia.
Qed.

Lemma fillLayer_later (key : Key) (dp : list layer) (chord : RomanNumeral) :
  dp <> [] ->
  fillLayer' key dp chord
  = (voicings <- voiceChord chord ;;
     l <- mapR (fun v => b <- best' key (last dp []) v ;; Ok (v, b)) voicings ;;
     Ok (dp ++ [l])).
Proof. intros H. destruct dp; [contradiction | reflexivity]. Qed.

(** A path through one more list of voicings is a path through the lists
    before, followed by a voicing of the last list. *)
Lemma throughVoicings_snoc (Vs : list (list Chord)) (V : list Chord) (path : list Chord) :
  throughVoicings (Vs ++ [V]) path
  <-> exists q u, path = q ++ [u] /\ throughVoicings Vs q /\ In u V.
Proof.
  unfold throughVoicings. split.
  - intros H. apply Forall2_app_inv_l in H.
    destruct H as [q [t [Hq [Ht ->]]]].
    inversion Ht as [| V0 u l0 t0 Hu Hnil]; subst. inversion Hnil; subst.
    exists q, u. auto.
  - intros [q [u [-> [Hq Hu]]]]. apply Forall2_app; [exact Hq |].
    constructor; [exact Hu | constructor].
Qed.

(** The first layer: every voicing of the first chord at cost 0. *)
Lemma firstLayer_optimal (key : Key) (V : list Chord) :
  tableOptimal' key [V] [map (fun v => (v, (Int 0, @None nat))) V].
Proof.
  exists [], V, [], (map (fun v => (v, (Int 0, @None nat))) V).
  split; [reflexivity |]. split; [reflexivity |]. split.
  - rewrite map_map. cbn [fst]. apply map_id.
  - intros j e Hj. exists 0, []. 
    apply nth_error_In in Hj as Hin. apply in_map_iff in Hin.
    destruct Hin as [v [<- _]]. cbn [fst snd app].
    split; [reflexivity |]. split; [constructor |]. split; [reflexivity |]. split.
    + intros q' z Hq' Hz. inversion Hq'; subst. cbn in Hz. injection Hz as <-. lia.
    + intros ret. cbn [app rev backtrace]. rewrite Hj.
      cbn [backtrace]. rewrite rev_app_distr. reflexivity.
Qed.

(** One more chord: the loop body keeps the invariant. *)
Lemma fillLayer_optimal (key : Key) (Vs : list (list Chord)) (dp : list layer)
    (chord : RomanNumeral) (V' : list Chord) :
  tableOptimal' key Vs dp ->
  last Vs [] <> [] ->
  voiceChord chord = Ok V' ->
  (forall u v, In u (last Vs []) -> In v V' -> exists z, cost' key u v = Ok z) ->
  exists dp',
    fillLayer' key dp chord = Ok dp' /\ tableOptimal' key (Vs ++ [V']) dp'.
Proof.
  intros [Vs0 [V [dp0 [l [-> [-> [HV Hl]]]]]]] Hne HV' Hcost.
  rewrite last_last in Hne, Hcost.
  rewrite fillLayer_later by (destruct dp0; discriminate).
  rewrite HV'. cbn [bind]. rewrite last_last.
  assert (forall e, In e l -> exists m, fst (snd e) = Int m) as Hint.
  { intros e He. apply In_nth_error in He. destruct He as [j Hj].
    destruct (Hl j e Hj) as [m [q [Hm _]]]. eauto. }
  assert (forall v, In v V' -> exists b, best' key l v = Ok b /\ bestAmong' key v l b) as Hbest.
  { intros v Hv. unfold best, enumerate.
    destruct (best_fold key v l [] (inf, None))
      as [acc' [Hfold Hacc']].
    - exact Hint.
    - intros e He. apply Hcost; [| exact Hv]. rewrite <- HV. apply in_map. exact He.
    - left. split; reflexivity.
    - exists acc'. split; [exact Hfold | exact Hacc']. }
  destruct (mapR_total (fun v => b <- best' key l v ;; Ok (v, b)) V') as [l' Hl'].
  { intros v Hv. destruct (Hbest v Hv) as [b [-> _]]. cbn [bind]. eauto. }
  rewrite Hl'. cbn [bind]. eexists. split; [reflexivity |].
  apply mapR_Forall2 in Hl'.
  exists (Vs0 ++ [V]), V', (dp0 ++ [l]), l'.
  split; [reflexivity |]. split; [reflexivity |]. split.
  - clear - Hl'. induction Hl' as [| v e V' l' Hve Hl' IH]; [reflexivity |].
    cbn [map]. f_equal; [| exact IH]. bind_inv Hve. injection Hve as <-. reflexivity.
  - intros j e Hj.
    destruct (Forall2_nth_error_r _ _ _ _ _ Hl' Hj) as [v [Hv Hve]].
    apply nth_error_In in Hv.
    destruct (Hbest v Hv) as [b [Hb Hamong]]. rewrite Hb in Hve. cbn [bind] in Hve.
    injection Hve as <-.
    destruct Hamong as [[Hnil _] | [k [u [mk [pk [c [-> [Hk [Hc Hmin]]]]]]]]].
    { exfalso. apply Hne. rewrite <- HV, Hnil. reflexivity. }
    destruct (Hl k _ Hk) as [m [q [Hm [Hq [Hpath [Hleast Hback]]]]]].
    cbn [fst snd] in Hm, Hpath, Hleast, Hback. injection Hm as <-.
    exists (mk + c), (q ++ [u]). cbn [fst snd].
    split; [reflexivity |]. split.
    { apply throughVoicings_snoc. exists q, u. split; [reflexivity |]. split; [exact Hq |].
      rewrite <- HV. apply nth_error_In in Hk. apply (in_map fst) in Hk. exact Hk. }
    split.
    { apply pathCost_snoc. exists mk, c. auto. }
    split.
    { intros q' z Hq' Hz. apply throughVoicings_snoc in Hq'.
      destruct Hq' as [q0 [u' [-> [Hq0 Hu']]]].
      apply pathCost_snoc in Hz. destruct Hz as [a [c' [Ha [Hc' ->]]]].
      rewrite <- HV in Hu'. apply in_map_iff in Hu'. destruct Hu' as [[u0 [n0 p0]] [Heq He]].
      cbn [fst] in Heq. subst u0.
      apply In_nth_error in He as Hj'. destruct Hj' as [j' Hj'].
      destruct (Hl j' _ Hj') as [m' [q1 [Hm' [_ [_ [Hleast' _]]]]]].
      cbn [fst snd] in Hm', Hleast'. subst n0.
      specialize (Hleast' q0 a Hq0 Ha).
      specialize (Hmin u' m' p0 c' He Hc'). lia. }
    intros ret. rewrite rev_app_distr. cbn [rev app backtrace]. rewrite Hj.
    rewrite Hback. rewrite rev_app_distr. cbn [rev app]. rewrite <- !app_assoc. reflexivity.
Qed.


(** The rest of the loop over the progression, from a table that holds the
    invariant. *)
Lemma foldR_fillLayer_optimal (key : Key) (prog : list RomanNumeral)
    (Vs' Vs : list (list Chord)) (dp : list layer) :
  tableOptimal' key Vs dp ->
  last Vs [] <> [] ->
  Forall2 (fun chord V => voiceChord chord = Ok V) prog Vs' ->
  Forall (fun V : list Chord => V <> []) Vs' ->
  (forall u v, In u (List.concat (Vs ++ Vs')) -> In v (List.concat (Vs ++ Vs')) ->
               exists z, cost' key u v = Ok z) ->
  exists dp',
    foldR (fillLayer' key) prog dp = Ok dp' /\ tableOptimal' key (Vs ++ Vs') dp'.
Proof.
  intros Htable Hne Hprog. revert Vs dp Htable Hne.
  induction Hprog as [| chord V' prog Vs' HV' Hprog IH]; intros Vs dp Htable Hne Hall Hcost.
  - rewrite app_nil_r. exists dp. split; [reflexivity | exact Htable].
  - cbn [foldR].
    assert (In (last Vs []) Vs) as Hlast.
    { destruct Htable as [Vs0 [V [_ [_ [-> _]]]]]. rewrite last_last.
      apply in_or_app. right. left. reflexivity. }
    destruct (fillLayer_optimal key Vs dp chord V' Htable Hne HV') as [dp1 [Hdp1 Htable1]].
    { intros u v Hu Hv. apply Hcost; apply in_concat.
      - exists (last Vs []). split; [apply in_or_app; left; exact Hlast | exact Hu].
      - exists V'. split; [apply in_or_app; right; left; reflexivity | exact Hv]. }
    rewrite Hdp1. cbn [bind].
    replace (Vs ++ V' :: Vs') with ((Vs ++ [V']) ++ Vs') in *
      by (rewrite <- app_assoc; reflexivity).
    apply IH.
    + exact Htable1.
    + rewrite last_last. inversion Hall; assumption.
    + inversion Hall; assumption.
    + exact Hcost.
Qed.

(** The voicing returned for a progression, of any length, is a cheapest
    one: [voiceProgression] prints the total cost of the sequence it
    returns, the sequence takes one voicing of each chord, in order, and
    no such sequence has a smaller total cost. *)
Theorem voiceProgression_optimal (key : Key) (prog : list RomanNumeral)
    (Vs : list (list Chord)) :
  prog <> [] ->
  Forall2 (fun chord V => voiceChord chord = Ok V) prog Vs ->
  Forall (fun V : list Chord => V <> []) Vs ->
  (forall u v, In u (List.concat Vs) -> In v (List.concat Vs) ->
               exists z, cost' key u v = Ok z) ->
  exists path m,
    voiceProgression' key prog = ([Int m], Ok path)
    /\ throughVoicings Vs path
    /\ pathCost' key path = Ok m
    /\ forall path' z,
         throughVoicings Vs path' -> pathCost' key path' = Ok z -> m <= z.
Proof.
  intros Hprog HVs Hne Hcost.
  destruct HVs as [| chord V0 prog Vs' HV0 HVs]; [contradiction |].
  inversion Hne as [| V0' Vs'' HneV0 HneVs']; subst.
  destruct (foldR_fillLayer_optimal key prog Vs' [V0]
              [map (fun v => (v, (Int 0, @None nat))) V0])
    as [dp [Hdp Htable]].
  - apply firstLayer_optimal.
  - exact HneV0.
  - exact HVs.
  - exact HneVs'.
  - exact Hcost.
  - unfold voiceProgression. cbn [foldR]. unfold fillLayer at 1. rewrite HV0. cbn [bind].
    rewrite Hdp. cbn [app] in Htable.
    destruct Htable as [Vs0 [V [dp0 [l [HeqVs [-> [HV Hl]]]]]]].
    rewrite rev_app_distr. cbn [rev app].
    pose proof (minEntry_least l) as Hleast.
    destruct (minEntry l) as [[cur totalCost] |]; cbn [leastOf] in Hleast.
    2: { exfalso. subst l. cbn [map] in HV. subst V.
         assert (In [] (V0 :: Vs')) as Hin
           by (rewrite HeqVs; apply in_or_app; right; left; reflexivity).
         rewrite Forall_forall in Hne. exact (Hne _ Hin eq_refl). }
    destruct Hleast as [[v [p Hcur]] Hmin].
    destruct (Hl cur _ Hcur) as [m [q [Hm [Hq [Hpath [Hbest Hback]]]]]].
    cbn [fst snd] in Hm, Hpath, Hbest, Hback. subst totalCost.
    exists (q ++ [v]), m. rewrite HeqVs.
    split.
    { f_equal. specialize (Hback []). rewrite rev_app_distr in Hback.
      cbn [rev app] in Hback. rewrite Hback. rewrite app_nil_r. reflexivity. }
    split.
    { apply throughVoicings_snoc. exists q, v. split; [reflexivity |]. split; [exact Hq |].
      rewrite <- HV. apply nth_error_In in Hcur. apply (in_map fst) in Hcur. exact Hcur. }
    split; [exact Hpath |].
    intros path' z Hpath' Hz. apply throughVoicings_snoc in Hpath'.
    destruct Hpath' as [q' [v' [-> [Hq' Hv']]]].
    rewrite <- HV in Hv'. apply in_map_iff in Hv'. destruct Hv' as [[v0 [n0 p0]] [Heq He]].
    cbn [fst] in Heq. subst v0.
    specialize (Hmin _ He). cbn [fst snd] in Hmin.
    apply In_nth_error in He. destruct He as [j Hj].
    destruct (Hl j _ Hj) as [m' [q1 [Hm' [_ [_ [Hleast' _]]]]]].
    cbn [fst snd] in Hm', Hleast'. subst n0.
    specialize (Hleast' q' z Hq' Hz). cbn [number_ltb] in Hmin.
    apply Z.ltb_ge in Hmin. lia.
Qed.

End ProgressionOptimality.


(** ** The score *)

Lemma voiceChord_each_wellVoiced (chord : RomanNumeral) (voicings : list Chord) :
  voiceChord chord = Ok voicings -> Forall wellVoiced voicings.
Proof.
  intros H. apply Forall_forall. intros v Hv.
  destruct (voiceChord_alternative chord voicings v H Hv) as [noteNames [vs [_ [Hvs Hin]]]].
  exact (_voiceChord_wellVoiced noteNames vs v Hvs Hin).
Qed.

Lemma foldR_appendChord (chords : list Chord) (voices0 voices1 voices2 voices3 : Voice) :
  Forall (fun c : Chord => List.length c = 4%nat) chords ->
  foldR appendChord chords (voices0, voices1, voices2, voices3)
  = Ok (voices0 ++ voiceLine 3 "up"%string chords,
        voices1 ++ voiceLine 2 "down"%string chords,
        voices2 ++ voiceLine 1 "up"%string chords,
        voices3 ++ voiceLine 0 "down"%string chords).
Proof.
  intros H. revert voices0 voices1 voices2 voices3.
  induction H as [| c chords Hc H IH]; intros voices0 voices1 voices2 voices3.
  - cbn [foldR voiceLine flat_map]. rewrite !app_nil_r. reflexivity.
  - destruct c as [| b [| t [| a [| s [| x c]]]]]; try discriminate.
    cbn [foldR appendChord bind]. rewrite IH.
    cbn [voiceLine flat_map nth_error app]. rewrite <- !app_assoc. reflexivity.
Qed.

Lemma foldR_appendChord_raises (chords : list Chord) (c : Chord)
    (voices : Voice * Voice * Voice * Voice) :
  In c chords -> List.length c <> 4%nat ->
  foldR appendChord chords voices = Raise ValueError.
Proof.
  intros Hin Hlen. revert voices.
  induction chords as [| c0 chords IH]; intros [[[voices0 voices1] voices2] voices3];
    [destruct Hin |].
  cbn [foldR].
  destruct c0 as [| b [| t [| a [| s [| x c0]]]]]; try reflexivity.
  destruct Hin as [<- | Hin]; [exfalso; apply Hlen; reflexivity |].
  cbn [appendChord bind]. apply IH. exact Hin.
Qed.

(** showChords on chords of four pitches each: the treble staff holds
    the line of the highest pitches, stems up, and the line of the third
    pitches, stems down; the bass staff the line of the second pitches,
    stems up, and the line of the lowest, stems down. *)
Theorem showChords_lines (chords : list Chord) :
  Forall (fun c : Chord => List.length c = 4%nat) chords ->
  showChords chords
  = Ok [[ClefOf TrebleClef; VoiceOf (voiceLine 3 "up"%string chords);
                            VoiceOf (voiceLine 2 "down"%string chords)];
        [ClefOf BassClef; VoiceOf (voiceLine 1 "up"%string chords);
                          VoiceOf (voiceLine 0 "down"%string chords)]].
Proof.
  intros H. unfold showChords. rewrite foldR_appendChord by exact H. reflexivity.
Qed.

(** showChords raises ValueError, and shows nothing, as soon as one of
    the chords does not have exactly four pitches. *)
Theorem showChords_raises (chords : list Chord) (c : Chord) :
  In c chords -> List.length c <> 4%nat -> showChords chords = Raise ValueError.
Proof.
  intros Hin Hlen. unfold showChords.
  rewrite (foldR_appendChord_raises chords c _ Hin Hlen). reflexivity.
Qed.

Lemma voiceLine_length (i : nat) (stem : string) (chords : list Chord) :
  Forall (fun c : Chord => List.length c = 4%nat) chords -> (i < 4)%nat ->
  List.length (voiceLine i stem chords) = List.length chords.
Proof.
  intros H Hi. induction H as [| c chords Hc H IH]; [reflexivity |].
  cbn [voiceLine flat_map]. rewrite length_app. fold (voiceLine i stem chords). rewrite IH.
  destruct (nth_error c i) eqn:Hnth; [reflexivity |].
  apply nth_error_None in Hnth. lia.
Qed.

Lemma voiceLine_stem (i : nat) (stem : string) (chords : list Chord) :
  Forall (fun note => stemDirection note = stem) (voiceLine i stem chords).
Proof.
  induction chords as [| c chords IH]; [constructor |].
  cbn [voiceLine flat_map]. apply Forall_app. split; [| exact IH].
  destruct (nth_error c i); repeat constructor.
Qed.

Lemma voiceLine_above (i j : nat) (si sj : string) (chords : list Chord) :
  Forall (fun c : Chord =>
            exists p q, nth_error c i = Some p /\ nth_error c j = Some q /\ ps q <= ps p)
         chords ->
  Forall2 above (voiceLine i si chords) (voiceLine j sj chords).
Proof.
  intros H. induction H as [| c chords [p [q [Hp [Hq Hle]]]] H IH]; [constructor |].
  cbn [voiceLine flat_map]. rewrite Hp, Hq. cbn [app].
  constructor; [exact Hle | exact IH].
Qed.

(** The score of well-voiced chords. *)
Lemma showChords_wellVoiced (chords : list Chord) :
  Forall wellVoiced chords ->
  exists score, showChords chords = Ok score /\ fourPartScore (List.length chords) score.
Proof.
  intros H.
  assert (Forall (fun c : Chord => List.length c = 4%nat) chords) as Hfour.
  { eapply Forall_impl; [| exact H]. intros c [b [t [a [s [-> _]]]]]. reflexivity. }
  eexists. split.
  { unfold showChords. rewrite foldR_appendChord by exact Hfour. reflexivity. }
  cbn [app].
  exists (voiceLine 3 "up"%string chords), (voiceLine 2 "down"%string chords),
         (voiceLine 1 "up"%string chords), (voiceLine 0 "down"%string chords).
  split; [reflexivity |].
  split; [apply voiceLine_length; [exact Hfour | lia] |].
  split; [| split; [| split; [| split]]].
  - apply voiceLine_above. eapply Forall_impl; [| exact H].
    intros c [b [t [a [s [-> [Hbt [Hta [Has _]]]]]]]]. exists s, a. auto.
  - apply voiceLine_above. eapply Forall_impl; [| exact H].
    intros c [b [t [a [s [-> [Hbt [Hta [Has _]]]]]]]]. exists a, t. auto.
  - apply voiceLine_above. eapply Forall_impl; [| exact H].
    intros c [b [t [a [s [-> [Hbt [Hta [Has _]]]]]]]]. exists t, b. auto.
  - apply Forall_app. split; apply voiceLine_stem.
  - apply Forall_app. split; apply voiceLine_stem.
Qed.

(** showVoicings shows every voicing that voiceChord returns: the score
    has a note in each of the four voices for each voicing, and in no
    column a voice is below the voice under it. *)
Theorem showVoicings_score (chord : RomanNumeral) (voicings : list Chord) :
  voiceChord chord = Ok voicings ->
  exists score,
    showVoicings chord = Ok score /\ fourPartScore (List.length voicings) score.
Proof.
  intros H. unfold showVoicings. rewrite H. cbn [bind].
  apply showChords_wellVoiced. exact (voiceChord_each_wellVoiced chord voicings H).
Qed.

(** showVoicings raises exactly when voiceChord does, with the same
    exception: the unpacking of the four pitches never fails on a
    voicing. *)
Theorem showVoicings_raises (chord : RomanNumeral) (e : exn) :
  showVoicings chord = Raise e <-> voiceChord chord = Raise e.
Proof.
  unfold showVoicings. destruct (voiceChord chord) as [voicings | e'] eqn:H; cbn [bind].
  - destruct (showChords_wellVoiced voicings (voiceChord_each_wellVoiced chord voicings H))
      as [score [-> _]]. split; discriminate.
  - split; intros He; injection He as <-; reflexivity.
Qed.


(** ** What voiceProgression returns *)

(** [min] keeps the first entry when no later one costs less. *)
Lemma minEntry_seed_fold (voicings : list Chord) (n : nat) :
  fold_left minStep
    (combine (seq n (List.length voicings))
             (map (fun v => (v, (Int 0, @None nat))) voicings))
    (Some (0%nat, Int 0))
  = Some (0%nat, Int 0).
Proof.
  revert n. induction voicings as [| v voicings IH]; intros n; [reflexivity |].
  cbn [List.length seq map combine fold_left minStep number_ltb].
  rewrite Z.ltb_irrefl. apply IH.
Qed.

(** The backtrace takes one voicing of each layer it walks through. *)
Lemma backtrace_through (layers : list layer) (Vs : list (list Chord)) :
  Forall2 (fun (V : list Chord) (l : layer) => map fst l = V) Vs layers ->
  forall cur ret path,
    backtrace layers cur ret = Ok path ->
    exists q, path = rev (ret ++ q) /\ Forall2 (fun V u => In u V) Vs q.
Proof.
  intros H. induction H as [| V l Vs layers HV H IH]; intros cur ret path Hback.
  - cbn [backtrace] in Hback. injection Hback as <-. exists []. rewrite app_nil_r.
    split; [reflexivity | constructor].
  - cbn [backtrace] in Hback. destruct cur as [k |]; [| discriminate].
    destruct (nth_error l k) as [[v [c p]] |] eqn:Hk; [| discriminate].
    destruct (IH _ _ _ Hback) as [q [-> Hq]].
    exists (v :: q). rewrite <- app_assoc. split; [reflexivity |].
    constructor; [| exact Hq]. rewrite <- HV.
    apply nth_error_In in Hk. apply (in_map fst) in Hk. exact Hk.
Qed.

Lemma Forall2_rev {X Y : Type} (R : X -> Y -> Prop) (l : list X) (l' : list Y) :
  Forall2 R l l' -> Forall2 R (rev l) (rev l').
Proof.
  induction 1 as [| x y l l' Hxy H IH]; [constructor |].
  cbn [rev]. apply Forall2_app; [exact IH | constructor; [exact Hxy | constructor]].
Qed.

Section ProgressionResult.

Variable Chord_root : Chord -> Pitch.
Variable Chord_third : Chord -> option Pitch.
Variable Chord_seventh : Chord -> option Pitch.

Local Abbreviation cost' := (cost Chord_root Chord_third Chord_seventh).
Local Abbreviation best' := (best Chord_root Chord_third Chord_seventh).
Local Abbreviation fillLayer' := (fillLayer Chord_root Chord_third Chord_seventh).
Local Abbreviation voiceProgression' :=
  (voiceProgression Chord_root Chord_third Chord_seventh).

(** A progression of one chord: voiceProgression prints the cost 0 and
    returns the first voicing that voiceChord yields, whatever the key. *)
Theorem voiceProgression_single_chord (key : Key) (chord : RomanNumeral)
    (v : Chord) (rest : list Chord) :
  voiceChord chord = Ok (v :: rest) ->
  voiceProgression' key [chord] = ([Int 0], Ok [v]).
Proof.
  intros H. unfold voiceProgression. cbn [foldR]. unfold fillLayer. rewrite H.
  cbn [bind rev app map]. unfold minEntry, enumerate.
  cbn [List.length seq combine fold_left minStep].
  rewrite length_map.
  rewrite minEntry_seed_fold. reflexivity.
Qed.

Lemma fillLayer_layersOf (key : Key) (Vs : list (list Chord)) (dp dp' : list layer)
    (chord : RomanNumeral) :
  layersOf Vs dp -> fillLayer' key dp chord = Ok dp' ->
  exists V, voiceChord chord = Ok V /\ layersOf (Vs ++ [V]) dp'.
Proof.
  intros Hdp H. unfold fillLayer in H. bind_inv H. exists x. split; [exact Hx |].
  destruct dp as [| l0 dp].
  - injection H as <-. inversion Hdp; subst. cbn [app].
    constructor; [| constructor]. rewrite map_map. apply map_id.
  - bind_inv H. injection H as <-.
    change (layersOf (Vs ++ [x]) ((l0 :: dp) ++ [x0])). apply Forall2_app; [exact Hdp |].
    constructor; [| constructor]. apply mapR_Forall2 in Hx0.
    clear - Hx0. induction Hx0 as [| v e V l Hve Hl IH]; [reflexivity |].
    cbn [map]. f_equal; [| exact IH]. bind_inv Hve. injection Hve as <-. reflexivity.
Qed.

Lemma foldR_fillLayer_layersOf (key : Key) (prog : list RomanNumeral)
    (Vs : list (list Chord)) (dp dp' : list layer) :
  layersOf Vs dp -> foldR (fillLayer' key) prog dp = Ok dp' ->
  exists Vs',
    Forall2 (fun chord V => voiceChord chord = Ok V) prog Vs' /\ layersOf (Vs ++ Vs') dp'.
Proof.
  revert Vs dp. induction prog as [| chord prog IH]; intros Vs dp Hdp H.
  - cbn [foldR] in H. injection H as <-. exists []. rewrite app_nil_r.
    split; [constructor | exact Hdp].
  - cbn [foldR] in H. bind_inv H.
    destruct (fillLayer_layersOf key Vs dp x chord Hdp Hx) as [V [HV Hx']].
    destruct (IH _ _ Hx' H) as [Vs' [Hprog Hdp']].
    exists (V :: Vs'). split; [constructor; assumption |].
    rewrite <- app_assoc in Hdp'. exact Hdp'.
Qed.

(** Whatever [voiceProgression] returns takes one voicing of each chord,
    in order. *)
Lemma voiceProgression_through (key : Key) (prog : list RomanNumeral)
    (out : list number) (path : list Chord) :
  voiceProgression' key prog = (out, Ok path) ->
  exists Vs,
    Forall2 (fun chord V => voiceChord chord = Ok V) prog Vs /\ throughVoicings Vs path.
Proof.
  unfold voiceProgression. intros H.
  destruct (foldR (fillLayer' key) prog []) as [dp | e] eqn:Hdp; [| discriminate].
  destruct (foldR_fillLayer_layersOf key prog [] [] dp (Forall2_nil _) Hdp)
    as [Vs [Hprog Hlayers]].
  cbn [app] in Hlayers. exists Vs. split; [exact Hprog |].
  destruct (rev dp) as [| final before] eqn:Hrev; [discriminate |].
  destruct (minEntry final) as [[cur totalCost] |]; [| discriminate].
  injection H as _ Hback.
  change (backtrace (final :: before) (Some cur) [] = Ok path) in Hback.
  rewrite <- Hrev in Hback.
  destruct (backtrace_through (rev dp) (rev Vs) (Forall2_rev _ _ _ Hlayers) _ _ _ Hback)
    as [q [-> Hq]].
  cbn [app]. apply Forall2_rev in Hq. rewrite rev_involutive in Hq. exact Hq.
Qed.

Lemma throughVoicings_wellVoiced (prog : list RomanNumeral) (Vs : list (list Chord))
    (path : list Chord) :
  Forall2 (fun chord V => voiceChord chord = Ok V) prog Vs ->
  throughVoicings Vs path ->
  List.length path = List.length prog /\ Forall wellVoiced path.
Proof.
  intros Hprog. revert path. induction Hprog as [| chord V prog Vs HV Hprog IH];
    intros path Hpath; inversion Hpath as [| V0 u Vs0 rest Hu Hrest]; subst.
  - split; [reflexivity | constructor].
  - destruct (IH _ Hrest) as [Hlen Hall]. split; [cbn; f_equal; exact Hlen |].
    constructor; [| exact Hall].
    pose proof (voiceChord_each_wellVoiced chord V HV) as Heach.
    rewrite Forall_forall in Heach. exact (Heach u Hu).
Qed.

(** Whenever voiceProgression returns, it returns one chord for each
    chord of the progression, in order, each of them one of the voicings
    of voiceChord for that chord, hence a four-part voicing with every
    voice in its range. *)
Theorem voiceProgression_voicings (key : Key) (prog : list RomanNumeral)
    (out : list number) (path : list Chord) :
  voiceProgression' key prog = (out, Ok path) ->
  Forall2 (fun chord u => exists V, voiceChord chord = Ok V /\ In u V) prog path
  /\ Forall wellVoiced path.
Proof.
  intros H. destruct (voiceProgression_through key prog out path H) as [Vs [Hprog Hpath]].
  split; [| exact (proj2 (throughVoicings_wellVoiced prog Vs path Hprog Hpath))].
  clear H. revert path Hpath. induction Hprog as [| chord V prog Vs HV Hprog IH];
    intros path Hpath; inversion Hpath as [| V0 u Vs0 rest Hu Hrest]; subst;
    constructor; eauto.
Qed.

(** The composition of [main]: whatever voiceProgression returns,
    showChords shows it, with a note in each of the four voices for each
    chord of the progression and no voice below the voice under it. *)
Theorem showChords_voiceProgression (key : Key) (prog : list RomanNumeral)
    (out : list number) (path : list Chord) :
  voiceProgression' key prog = (out, Ok path) ->
  exists score, showChords path = Ok score /\ fourPartScore (List.length prog) score.
Proof.
  intros H. destruct (voiceProgression_through key prog out path H) as [Vs [Hprog Hpath]].
  destruct (throughVoicings_wellVoiced prog Vs path Hprog Hpath) as [<- Hall].
  apply showChords_wellVoiced. exact Hall.
Qed.

End ProgressionResult.

(** *** Examples *)

Lemma voiceProgression_optimal_witness :
  exists path m,
    voiceProgression lowestAsRoot highestAsThird noSeventh keyBflat cadenceBflat
    = ([Int m], Ok path)
    /\ throughVoicings (map voicingsOf cadenceBflat) path
    /\ pathCost lowestAsRoot highestAsThird noSeventh keyBflat path = Ok m
    /\ forall path' z,
         throughVoicings (map voicingsOf cadenceBflat) path' ->
         pathCost lowestAsRoot highestAsThird noSeventh keyBflat path' = Ok z -> m <= z.
Proof.
  apply (voiceProgression_optimal lowestAsRoot highestAsThird noSeventh keyBflat
           cadenceBflat (map voicingsOf cadenceBflat)).
  - discriminate.
  - unfold cadenceBflat. cbn [map]. repeat constructor; vm_compute; reflexivity.
  - unfold cadenceBflat. cbn [map].
    repeat constructor; intros H; apply (f_equal (@List.length Chord)) in H;
      vm_compute in H; discriminate.
  - intros u v Hu Hv.
    assert (forallb (fun u =>
              forallb (fun v =>
                match cost lowestAsRoot highestAsThird noSeventh keyBflat u v with
                | Ok _ => true
                | Raise _ => false
                end) (List.concat (map voicingsOf cadenceBflat)))
              (List.concat (map voicingsOf cadenceBflat)) = true) as Hall
      by (vm_compute; reflexivity).
    rewrite forallb_forall in Hall. specialize (Hall u Hu).
    rewrite forallb_forall in Hall. specialize (Hall v Hv).
    destruct (cost lowestAsRoot highestAsThird noSeventh keyBflat u v) as [z | e];
      [exists z; reflexivity | discriminate].
Defined.

(** The cadence of B-flat major: the cost printed is 21. *)
Example voiceProgression_cadence :
  voiceProgression lowestAsRoot highestAsThird noSeventh keyBflat cadenceBflat
  = ([Int 21],
     Ok [[mkPitch (flat B) 2; pitch D 4; pitch F 4; pitch F 4];
         [pitch F 2; pitch C 4; pitch F 4; pitch A 4];
         tonicVoicing]).
Proof. vm_compute. reflexivity. Qed.

Lemma voiceProgression_single_chord_witness :
  voiceProgression lowestAsRoot highestAsThird noSeventh keyBflat [tonicBflat]
  = ([Int 0], Ok [tonicVoicing]).
Proof.
  apply (voiceProgression_single_chord lowestAsRoot highestAsThird noSeventh keyBflat
           tonicBflat tonicVoicing (tl (voicingsOf tonicBflat))).
  vm_compute. reflexivity.
Defined.

Lemma voiceProgression_voicings_witness :
  Forall2 (fun chord u => exists V, voiceChord chord = Ok V /\ In u V)
          [dominantBflat; tonicBflat]
          [[pitch F 2; pitch C 4; pitch F 4; pitch A 4]; tonicVoicing]
  /\ Forall wellVoiced [[pitch F 2; pitch C 4; pitch F 4; pitch A 4]; tonicVoicing].
Proof.
  apply (voiceProgression_voicings lowestAsRoot highestAsThird noSeventh keyBflat
           [dominantBflat; tonicBflat] [Int 11]).
  vm_compute. reflexivity.
Defined.

Lemma showChords_voiceProgression_witness :
  exists score,
    showChords [[pitch F 2; pitch C 4; pitch F 4; pitch A 4]; tonicVoicing] = Ok score
    /\ fourPartScore 2 score.
Proof.
  apply (showChords_voiceProgression lowestAsRoot highestAsThird noSeventh keyBflat
           [dominantBflat; tonicBflat] [Int 11]).
  vm_compute. reflexivity.
Defined.

Lemma showChords_lines_witness :
  showChords [dominantVoicing; tonicVoicing]
  = Ok [[ClefOf TrebleClef;
         VoiceOf (voiceLine 3 "up"%string [dominantVoicing; tonicVoicing]);
         VoiceOf (voiceLine 2 "down"%string [dominantVoicing; tonicVoicing])];
        [ClefOf BassClef;
         VoiceOf (voiceLine 1 "up"%string [dominantVoicing; tonicVoicing]);
         VoiceOf (voiceLine 0 "down"%string [dominantVoicing; tonicVoicing])]].
Proof.
  apply (showChords_lines [dominantVoicing; tonicVoicing]).
  repeat constructor.
Defined.

(** The score of the dominant and the tonic of B-flat major. *)
Example showChords_dominant_tonic :
  showChords [dominantVoicing; tonicVoicing]
  = Ok [[ClefOf TrebleClef;
         VoiceOf [mkNote (pitch A 4) "up"%string; mkNote (mkPitch (flat B) 4) "up"%string];
         VoiceOf [mkNote (pitch F 4) "down"%string; mkNote (pitch F 4) "down"%string]];
        [ClefOf BassClef;
         VoiceOf [mkNote (pitch C 4) "up"%string; mkNote (pitch D 4) "up"%string];
         VoiceOf [mkNote (pitch F 3) "down"%string; mkNote (mkPitch (flat B) 2) "down"%string]]].
Proof. reflexivity. Qed.

Lemma showChords_raises_witness :
  In threeNotes [tonicVoicing; threeNotes]
  /\ List.length threeNotes <> 4%nat
  /\ showChords [tonicVoicing; threeNotes] = Raise ValueError.
Proof.
  assert (In threeNotes [tonicVoicing; threeNotes]) as Hin by (right; left; reflexivity).
  assert (List.length threeNotes <> 4%nat) as Hlen by discriminate.
  exact (conj Hin (conj Hlen (showChords_raises [tonicVoicing; threeNotes] threeNotes Hin Hlen))).
Defined.

Lemma showVoicings_score_witness :
  exists score,
    showVoicings tonicBflat = Ok score
    /\ fourPartScore (List.length (voicingsOf tonicBflat)) score.
Proof.
  apply (showVoicings_score tonicBflat (voicingsOf tonicBflat)).
  vm_compute. reflexivity.
Defined.

(** ** When voiceProgression fails *)

Section ProgressionFailures.

Variable Chord_root : Chord -> Pitch.
Variable Chord_third : Chord -> option Pitch.
Variable Chord_seventh : Chord -> option Pitch.

Local Abbreviation cost' := (cost Chord_root Chord_third Chord_seventh).
Local Abbreviation bestStep' := (bestStep Chord_root Chord_third Chord_seventh).
Local Abbreviation best' := (best Chord_root Chord_third Chord_seventh).
Local Abbreviation fillLayer' := (fillLayer Chord_root Chord_third Chord_seventh).
Local Abbreviation voiceProgression' :=
  (voiceProgression Chord_root Chord_third Chord_seventh).





End ProgressionFailures.


